(** * edge_tts.list_voices: the voice fetcher and the voice directory

    A shallow embedding of [src/edge_tts/list_voices.py]: the coroutine
    [list_voices] and the class [VoicesManager] with its constructor, its
    factory [create] and its query [find].

    Python values are an inductive type, dictionaries are finite maps with
    string keys, exceptions are values of a sum type, and the two effects
    of the module (the HTTP request and the exception that aborts a call)
    live in a small state-and-error monad. *)

From Stdlib Require Import ZArith Ascii String.
From stdpp Require Import gmap strings list fin_maps.

Set Warnings "-register-all".

(** ** Python values *)

Module Py.

(** The values a voice attribute or a keyword argument can hold: what
    [json.loads] produces, floats left out ([1 == 1.0] and NaN are outside
    this model). [bool] is a subclass of [int] in Python, which shows in
    [py_eq] below. *)
Inductive Value : Type :=
| VNone
| VBool (b : bool)
| VInt (n : Z)
| VStr (s : string)
| VList (xs : list Value)
| VDict (d : gmap string Value).

(** A voice: [Dict[str, Any]]. *)
Abbreviation Voice := (gmap string Value).

(** Python's [a == b] on these values. [True == 1] and [False == 0] hold,
    strings compare character by character, lists element by element and
    dictionaries key by key whatever the insertion order; values of
    different kinds are otherwise unequal. *)
Fixpoint py_eq (a b : Value) {struct a} : bool :=
  match a, b with
  | VNone, VNone => true
  | VBool x, VBool y => Bool.eqb x y
  | VBool x, VInt y => Z.eqb (Z.b2z x) y
  | VInt x, VBool y => Z.eqb x (Z.b2z y)
  | VInt x, VInt y => Z.eqb x y
  | VStr x, VStr y => String.eqb x y
  | VList xs, VList ys =>
      (fix elementwise (xs ys : list Value) {struct xs} : bool :=
         match xs, ys with
         | [], [] => true
         | x :: xs', y :: ys' => py_eq x y && elementwise xs' ys'
         | _, _ => false
         end) xs ys
  | VDict d1, VDict d2 =>
      Nat.eqb (size d1) (size d2) &&
      map_fold (fun k v acc =>
                  acc && match d2 !! k with
                         | Some w => py_eq v w
                         | None => false
                         end) true d1
  | _, _ => false
  end.

(** [d.get(key)]: the value under [key], [None] when the key is absent. *)
Definition dict_get (d : Voice) (key : string) : Value :=
  match d !! key with
  | Some v => v
  | None => VNone
  end.

(** The exceptions the module raises or lets through. [ClientError]
    stands for any instance of [aiohttp.ClientError] (its subclasses
    included) and carries [str(e)]; [JSONDecodeError] is
    [json.JSONDecodeError]; [OtherException] is an exception of any class
    outside those two families, named by its class. *)
Inductive PyExc : Type :=
| RuntimeError (msg : string)
| ValueError (msg : string)
| KeyError (key : string)
| AttributeError (attr : string)
| IndexError
| ClientError (cause : string)
| JSONDecodeError
| OtherException (cls : string).

(** A computation that returns or raises. *)
Definition Result (A : Type) : Type := PyExc + A.

Definition ok {A} (x : A) : Result A := inr x.
Definition raise {A} (e : PyExc) : Result A := inl e.

#[global] Instance Result_ret : MRet Result := fun A x => inr x.
#[global] Instance Result_bind : MBind Result :=
  fun A B f r => match r with
                 | inl e => inl e
                 | inr x => f x
                 end.

(** [s.split(sep)] for a one-character separator: the segments between
    the occurrences of [sep], in order; never the empty list. *)
Fixpoint split (sep : ascii) (s : string) : list string :=
  match s with
  | EmptyString => [EmptyString]
  | String c rest =>
      if Ascii.eqb c sep then EmptyString :: split sep rest
      else match split sep rest with
           | seg :: segs => String c seg :: segs
           | [] => [String c EmptyString]
           end
  end.

(** [xs[0]]. *)
Definition index0 {A} (xs : list A) : Result A :=
  match xs with
  | x :: _ => ok x
  | [] => raise IndexError
  end.

(** [sep in s]. *)
Fixpoint contains (sep : ascii) (s : string) : bool :=
  match s with
  | EmptyString => false
  | String c rest => Ascii.eqb c sep || contains sep rest
  end.

End Py.

Import Py.

(** ** The remote catalog seen through aiohttp *)

Module Http.

(** What the module reads off an [aiohttp.ClientResponse]: the status
    code, [str()] of the [ClientResponseError] that [raise_for_status]
    raises for it, and what [await response.json()] does: it returns the
    decoded body (annotated [List[Dict[str, Any]]] by [list_voices]) or
    raises. *)
Record Response : Type := {
  status : Z;
  status_error : string;
  json : Result (list Voice)
}.

(** The world outside the process. [requests] counts the GET requests
    issued to [VOICE_LIST] so far; [endpoint proxy n] is how request
    number [n], sent through [proxy], goes: [session.get] raises, or a
    response arrives. The URL and the fixed browser headers are constants
    of every request and are not part of the state. *)
Record World : Type := {
  requests : nat;
  endpoint : option string -> nat -> Result Response
}.

(** Coroutines of the module: they may issue requests and may raise. An
    [await] is sequencing. *)
Definition IO (A : Type) : Type := World -> Result A * World.

#[global] Instance IO_ret : MRet IO := fun A x w => (inr x, w).
#[global] Instance IO_bind : MBind IO :=
  fun A B f m w => match m w with
                   | (inl e, w') => (inl e, w')
                   | (inr x, w') => f x w'
                   end.

Definition throw {A} (e : PyExc) : IO A := fun w => (inl e, w).

Definition lift {A} (r : Result A) : IO A := fun w => (r, w).

(** [try: body except ...: handlers]. [handlers e] is [Some h] when an
    [except] clause matches [e], and [None] when none does: the exception
    then propagates. *)
Definition try_except {A} (body : IO A) (handlers : PyExc -> option (IO A))
  : IO A :=
  fun w => match body w with
           | (inl e, w') =>
               match handlers e with
               | Some h => h w'
               | None => (inl e, w')
               end
           | (inr x, w') => (inr x, w')
           end.

(** [session.get(VOICE_LIST, headers=..., proxy=proxy, ssl=ssl_ctx)]. *)
Definition session_get (proxy : option string) : IO Response :=
  fun w => (endpoint w proxy (requests w),
            {| requests := S (requests w); endpoint := endpoint w |}).

(** [response.raise_for_status()]: aiohttp raises [ClientResponseError],
    a [ClientError], when the status is 400 or higher. *)
Definition raise_for_status (response : Response) : IO unit :=
  if (400 <=? status response)%Z
  then throw (ClientError (status_error response))
  else mret tt.

(** [await response.json()]. *)
Definition response_json (response : Response) : IO (list Voice) :=
  lift (json response).

End Http.

Import Http.

(** ** list_voices.py *)

(** The body of the [try] statement of [list_voices]: the request, the
    status check and the decoding of the response. *)
Definition list_voices_try (proxy : option string) : IO (list Voice) :=
  response ← session_get proxy;
  _ ← raise_for_status response;
  data ← response_json response;
  mret data.

(** [async def list_voices] with its keyword argument [proxy]. Building
    the SSL context and the client session is taken to succeed. *)
Definition list_voices (proxy : option string) : IO (list Voice) :=
  try_except
    (list_voices_try proxy)
    (fun exc =>
       match exc with
       | ClientError e =>
           Some (throw (RuntimeError ("Failed to fetch voice list: " +:+ e)))
       | JSONDecodeError =>
           Some (throw
                   (ValueError
                      "Failed to decode the voice list response as JSON."))
       | _ => None
       end).

(** [class VoicesManager]: the two instance attributes. *)
Record VoicesManager : Type := {
  voices : list Voice;
  is_initialized : bool
}.

(** [VoicesManager.__init__]: [self.voices = voices or []], and the flag
    starts out [False]. *)
Definition __init__ (voices : option (list Voice)) : VoicesManager :=
  {| voices := match voices with
               | Some (v :: vs) => v :: vs
               | Some [] | None => []
               end;
     is_initialized := false |}.

(** [{**voice, "Language": voice["Locale"].split("-")[0]}]: the subscript
    raises [KeyError] on a voice without ["Locale"], the attribute lookup
    raises [AttributeError] on a locale that is not a string. *)
Definition with_language (voice : Voice) : Result Voice :=
  match voice !! "Locale" with
  | None => raise (KeyError "Locale")
  | Some (VStr locale) =>
      language ← index0 (split "-" locale);
      ok (<["Language" := VStr language]> voice)
  | Some _ => raise (AttributeError "split")
  end.

(** [await list_voices() if custom_voices is None else custom_voices]. *)
Definition fetch_or_seed (custom_voices : option (list Voice))
  : IO (list Voice) :=
  match custom_voices with
  | None => list_voices None
  | Some vs => mret vs
  end.

(** [VoicesManager.create], with the local variable [manager] threaded
    through its three assignments. *)
Definition create (custom_voices : option (list Voice)) : IO VoicesManager :=
  voices0 ← fetch_or_seed custom_voices;
  let manager := __init__ (Some voices0) in
  normalized ← lift (mapM with_language (voices manager));
  let manager := {| voices := normalized;
                    is_initialized := is_initialized manager |} in
  let manager := {| voices := voices manager; is_initialized := true |} in
  mret manager.

(** A method call on a manager: its outcome and the manager afterwards. *)
Definition Method (A : Type) : Type :=
  VoicesManager -> Result A * VoicesManager.

(** [all(voice.get(key) == value for key, value in attributes.items())].
    The comparisons have no effect and cannot raise, so the order in which
    the items are visited does not show. *)
Definition matches (attributes : gmap string Value) (voice : Voice) : bool :=
  forallb (fun '(key, value) => py_eq (dict_get voice key) value)
          (map_to_list attributes).

(** [VoicesManager.find], its keyword arguments as a dictionary. No
    statement of the method assigns to [self]. *)
Definition find (attributes : gmap string Value) : Method (list Voice) :=
  fun self =>
    if negb (is_initialized self) then
      (raise (RuntimeError
                "VoicesManager.find() called before VoicesManager.create()"),
       self)
    else if Nat.eqb (size attributes) 0 then
      (ok (voices self), self)
    else
      (ok (List.filter (matches attributes) (voices self)), self).

(** ** Notions the statements below are phrased with *)

(** The first dash-delimited segment of a locale. *)
Definition first_segment (locale language : string) : Prop :=
  index0 (split "-" locale) = ok language.

(** What one voice has to satisfy: under every queried key, [get] yields
    a value that Python's [==] accepts against the queried one. *)
Definition get_matches (attributes : gmap string Value) (voice : Voice)
  : Prop :=
  map_Forall (fun key value => py_eq (dict_get voice key) value = true)
             attributes.

#[global] Instance get_matches_dec attributes voice :
  Decision (get_matches attributes voice).
Proof. unfold get_matches. apply _. Defined.

(** The values [manager] takes inside [create], one after each statement
    that completes once the voices are at hand: after the constructor
    call, after the assignment to [manager.voices] and after the
    assignment to [manager.is_initialized]. A comprehension that raises
    ends the list after the first. *)
Definition manager_states (voices0 : list Voice) : list VoicesManager :=
  let manager := __init__ (Some voices0) in
  manager ::
  match mapM with_language (voices manager) with
  | inl _ => []
  | inr normalized =>
      let manager1 := {| voices := normalized;
                         is_initialized := is_initialized manager |} in
      let manager2 := {| voices := voices manager1;
                         is_initialized := true |} in
      [manager1; manager2]
  end.

(** [voice] carries the language derived from the locale of [raw]: the
    part before the first dash, or the whole locale when it has none. *)
Definition language_derived (raw voice : Voice) : Prop :=
  exists locale language,
    raw !! "Locale" = Some (VStr locale) /\
    voice !! "Language" = Some (VStr language) /\
    (forall pre post : string,
        locale = (pre +:+ "-" +:+ post) ->
        contains "-" pre = false ->
        language = pre) /\
    (contains "-" locale = false -> language = locale).

(** A voice whose language is consistent with its own locale. *)
Definition normalized (voice : Voice) : Prop := language_derived voice voice.

(** [voice] is [raw] with the language attached and nothing else touched. *)
Definition language_attached (raw voice : Voice) : Prop :=
  (forall key, key <> "Language" -> voice !! key = raw !! key) /\
  exists locale language,
    raw !! "Locale" = Some (VStr locale) /\
    first_segment locale language /\
    voice !! "Language" = Some (VStr language) /\
    voice = <["Language" := VStr language]> raw.

(** ** Example voices, directories and networks *)

Definition voice_A : Voice :=
  {[ "ShortName" := VStr "A"; "Locale" := VStr "en-US";
     "Gender" := VStr "Female" ]}.

Definition voice_B : Voice :=
  {[ "ShortName" := VStr "B"; "Locale" := VStr "en-GB";
     "Gender" := VStr "Male" ]}.

(** A voice without a gender. *)
Definition voice_C : Voice :=
  {[ "ShortName" := VStr "C"; "Locale" := VStr "en-US" ]}.

(** A voice without a locale. *)
Definition voice_D : Voice :=
  {[ "ShortName" := VStr "D"; "Gender" := VStr "Male" ]}.

(** A seeded voice that already carries a language, and not the one of
    its locale. *)
Definition voice_E : Voice :=
  {[ "ShortName" := VStr "E"; "Locale" := VStr "fr";
     "Language" := VStr "xx" ]}.

Definition with_en (voice : Voice) : Voice := <["Language" := VStr "en"]> voice.

Definition directory_AB : VoicesManager :=
  {| voices := [with_en voice_A; with_en voice_B]; is_initialized := true |}.

Definition directory_AC : VoicesManager :=
  {| voices := [with_en voice_A; with_en voice_C]; is_initialized := true |}.

Definition directory_C : VoicesManager :=
  {| voices := [with_en voice_C]; is_initialized := true |}.

(** A network on which every connection is refused. *)
Definition offline : World :=
  {| requests := 0;
     endpoint := fun _ _ => raise (ClientError "Cannot connect to host") |}.

(** A network on which every request runs into the total timeout of the
    session, which aiohttp reports as [asyncio.TimeoutError]. *)
Definition timing_out : World :=
  {| requests := 0;
     endpoint := fun _ _ => raise (OtherException "asyncio.TimeoutError") |}.

(** A service that answers 503. *)
Definition unavailable : World :=
  {| requests := 0;
     endpoint := fun _ _ =>
       ok {| status := 503;
             status_error := "503, message='Service Unavailable'";
             json := raise JSONDecodeError |} |}.

(** A service that answers 200 with a body that is not JSON. *)
Definition garbled : World :=
  {| requests := 0;
     endpoint := fun _ _ =>
       ok {| status := 200;
             status_error := "200, message='OK'";
             json := raise JSONDecodeError |} |}.

(** A service that answers 300 without a redirect target, the two voices
    in the body. *)
Definition undecided : World :=
  {| requests := 0;
     endpoint := fun _ _ =>
       ok {| status := 300;
             status_error := "300, message='Multiple Choices'";
             json := ok [voice_A; voice_B] |} |}.

(** A service that answers 200 with the two voices of the example. *)
Definition serving_AB : World :=
  {| requests := 0;
     endpoint := fun _ _ =>
       ok {| status := 200;
             status_error := "200, message='OK'";
             json := ok [voice_A; voice_B] |} |}.

(** A measure on values, for inductions that go through the lists and
    dictionaries inside a value. *)
Fixpoint value_size (v : Value) : nat :=
  match v with
  | VList xs => S (foldr (fun x acc => value_size x + acc) 0 xs)
  | VDict d => S (map_fold (fun _ x acc => value_size x + acc) 0 d)
  | _ => 0
  end.

(** ** util.py *)

Module Util.

(** The namespace [parser.parse_args()] returns in [amain]: one attribute
    per argument the parser declares. [text], [file] and [list_voices]
    form the required, mutually exclusive group. *)
Module Args.

Record t : Type := {
  text : option string;
  file : option string;
  list_voices : bool;
  voice : string;
  rate : string;
  volume : string;
  pitch : string;
  words_in_cue : Z;
  write_media : option string;
  write_subtitles : option string;
  proxy : option string
}.

(** [args.text = text]. *)
Definition set_text (args : t) (new_text : string) : t :=
  {| text := Some new_text;
     file := file args;
     list_voices := list_voices args;
     voice := voice args;
     rate := rate args;
     volume := volume args;
     pitch := pitch args;
     words_in_cue := words_in_cue args;
     write_media := write_media args;
     write_subtitles := write_subtitles args;
     proxy := proxy args |}.

End Args.

(** What the command line tool does that can be seen from outside, in the
    order it happens: a call of [print] with the text it prints, an
    attempt to open a text file and read it in full, a call of
    [_run_tts]. *)
Inductive Event : Type :=
| Printed (line : string)
| FileRead (path : string)
| TtsRun (args : Args.t).

(** The process: the network of [list_voices] and the events so far. *)
Record Process : Type := {
  net : World;
  events : list Event
}.

(** How a coroutine of the tool ends when it does not return: an
    exception, or [sys.exit(code)]. *)
Inductive Abort : Type :=
| Raised (e : PyExc)
| SystemExit (code : Z).

Definition Console (A : Type) : Type := Process -> (Abort + A) * Process.

#[global] Instance Console_ret : MRet Console := fun A x p => (inr x, p).
#[global] Instance Console_bind : MBind Console :=
  fun A B f m p => match m p with
                   | (inl a, p') => (inl a, p')
                   | (inr x, p') => f x p'
                   end.

(** A coroutine of [list_voices.py], awaited by the tool. *)
Definition await {A} (m : IO A) : Console A :=
  fun p => match m (net p) with
           | (inl e, w) => (inl (Raised e), {| net := w; events := events p |})
           | (inr x, w) => (inr x, {| net := w; events := events p |})
           end.

(** A computation that touches neither the network nor the output. *)
Definition pure {A} (r : Result A) : Console A :=
  fun p => match r with
           | inl e => (inl (Raised e), p)
           | inr x => (inr x, p)
           end.

(** The same, for a computation whose outcome depends on the process. *)
Definition pure_of {A} (f : Process -> Result A) : Console A :=
  fun p => pure (f p) p.

Definition emit (ev : Event) : Console unit :=
  fun p => (inr tt, {| net := net p; events := events p ++ [ev] |}).

(** [print(line)]; [print()] is [print_line ""]. *)
Definition print_line (line : string) : Console unit := emit (Printed line).

(** [sys.exit(code)]. *)
Definition sys_exit {A} (code : Z) : Console A :=
  fun p => (inl (SystemExit code), p).

(** Truth value of an optional string argument: [None] and the empty
    string are false. *)
Definition truthy (o : option string) : bool :=
  match o with
  | Some (String _ _) => true
  | Some EmptyString | None => false
  end.

(** The set literal of [_print_voices]: the attributes it does not print. *)
Definition hidden : list string :=
  ["SuggestedCodec"; "FriendlyName"; "Status"; "VoiceTag"; "Name"; "Locale"].

(** ['Name' if key == 'ShortName' else key]. *)
Definition label (key : string) : string :=
  if String.eqb key "ShortName" then "Name" else key.

Section Builtins.

(** Three builtins of Python are parameters: [str(value)] as the f-string
    applies it, [voice.items()], which lists the attributes of a voice in
    the order the decoder inserted them, and [list.sort] on the voices
    paired with their keys, which raises when two keys do not compare. *)
Variable py_str : Value -> string.
Variable dict_items : Voice -> list (string * Value).
Variable list_sort : list (Value * Voice) -> Result (list Voice).

(** Two collaborators of [amain] are parameters as well:
    [open(path, "r", encoding="utf-8").read()], and what a call of
    [_run_tts], whose classes [Communicate] and [SubMaker] live in other
    files, comes to. *)
Variable read_text : string -> Result string.
Variable run_tts : Args.t -> Process -> Result unit.

(** [lambda v: v["ShortName"]]. *)
Definition short_name (v : Voice) : Result Value :=
  match v !! "ShortName" with
  | Some name => ok name
  | None => raise (KeyError "ShortName")
  end.

(** [sorted(voices, key=lambda v: v["ShortName"])]: the keys are computed
    first, one per voice and in order, then the list is sorted. *)
Definition sorted (voices : list Voice) : Result (list Voice) :=
  keys ← mapM short_name voices;
  list_sort (zip keys voices).

(** The body of the inner loop of [_print_voices]. *)
Definition print_attribute (item : string * Value) : Console unit :=
  let '(key, value) := item in
  if bool_decide (key ∈ hidden) then mret tt
  else print_line (label key +:+ ": " +:+ py_str value).

(** The outer loop of [_print_voices], from index [idx] on. *)
Fixpoint print_enumerated (idx : nat) (voices : list Voice) : Console unit :=
  match voices with
  | [] => mret tt
  | voice :: rest =>
      _ ← (if Nat.ltb 0 idx then print_line "" else mret tt);
      _ ← mapM print_attribute (dict_items voice);
      print_enumerated (S idx) rest
  end.

(** [async def _print_voices(proxy)]. *)
Definition _print_voices (proxy : option string) : Console unit :=
  fetched ← await (list_voices proxy);
  voices ← pure (sorted fetched);
  print_enumerated 0 voices.

(** [with open(args.file, "r", encoding="utf-8") as file: file.read()]. *)
Definition read_file (path : string) : Console string :=
  _ ← emit (FileRead path);
  pure (read_text path).

(** [await _run_tts(args)]. *)
Definition _run_tts (args : Args.t) : Console unit :=
  _ ← emit (TtsRun args);
  pure_of (run_tts args).

(** [async def amain()], from the parsed arguments on. *)
Definition amain (args : Args.t) : Console unit :=
  _ ← (if Args.list_voices args
       then _ ← _print_voices (Args.proxy args); sys_exit 0
       else mret tt);
  args ← match Args.file args with
         | Some path =>
             if truthy (Some path)
             then content ← read_file path; mret (Args.set_text args content)
             else mret args
         | None => mret args
         end;
  if truthy (Args.text args) then _run_tts args else mret tt.

(** The lines [_print_voices] prints for one voice, and for the sorted
    voices from index [idx] on. *)
Definition attribute_lines (voice : Voice) : list string :=
  omap (fun '(key, value) =>
          if bool_decide (key ∈ hidden) then None
          else Some (label key +:+ ": " +:+ py_str value))
       (dict_items voice).

Fixpoint voices_lines (idx : nat) (voices : list Voice) : list string :=
  match voices with
  | [] => []
  | voice :: rest =>
      (if Nat.ltb 0 idx then [""] else [])
      ++ attribute_lines voice ++ voices_lines (S idx) rest
  end.

End Builtins.

End Util.

(** ** Stand-ins for the builtins and inputs of the tool's examples *)

(** [str] where the examples need it: on strings. *)
Definition example_str (v : Value) : string :=
  match v with
  | VStr s => s
  | _ => "?"
  end.

(** An order of the attributes of a voice. *)
Definition example_items (voice : Voice) : list (string * Value) :=
  map_to_list voice.

Definition example_key (k : Value) : Result string :=
  match k with
  | VStr s => ok s
  | _ => raise (OtherException "TypeError")
  end.

Fixpoint insert_sorted (k : string) (v : Voice) (l : list (string * Voice))
  : list (string * Voice) :=
  match l with
  | [] => [(k, v)]
  | (k', v') :: rest =>
      if String.leb k k' then (k, v) :: l
      else (k', v') :: insert_sorted k v rest
  end.

(** A stable sort on string keys. *)
Definition example_sort (decorated : list (Value * Voice))
  : Result (list Voice) :=
  keyed ← mapM (fun '(k, v) => s ← example_key k; ok (s, v)) decorated;
  ok ((foldr (fun '(k, v) acc => insert_sorted k v acc) [] keyed).*2).

(** A file system with two files, one of them empty. *)
Definition example_read_text (path : string) : Result string :=
  if String.eqb path "speech.txt" then ok "Hello world"
  else if String.eqb path "empty.txt" then ok ""
  else raise (OtherException "FileNotFoundError").

Definition example_run_tts (args : Util.Args.t) (p : Util.Process)
  : Result unit := ok tt.

(** A service that lists B before A. *)
Definition serving_BA : World :=
  {| requests := 0;
     endpoint := fun _ _ =>
       ok {| status := 200;
             status_error := "200, message='OK'";
             json := ok [voice_B; voice_A] |} |}.

(** A voice without a short name, and a service that lists it. *)
Definition voice_F : Voice :=
  {[ "Locale" := VStr "en-US"; "Gender" := VStr "Male" ]}.

Definition serving_AF : World :=
  {| requests := 0;
     endpoint := fun _ _ =>
       ok {| status := 200;
             status_error := "200, message='OK'";
             json := ok [voice_A; voice_F] |} |}.

(** A process that has done nothing yet. *)
Definition start (w : World) : Util.Process :=
  {| Util.net := w; Util.events := [] |}.

(** The parsed arguments of [-t text], [-f path] and [-l]. *)
Definition args_text (text : string) : Util.Args.t :=
  {| Util.Args.text := Some text;
     Util.Args.file := None;
     Util.Args.list_voices := false;
     Util.Args.voice := "en-US-AriaNeural";
     Util.Args.rate := "+0%";
     Util.Args.volume := "+0%";
     Util.Args.pitch := "+0Hz";
     Util.Args.words_in_cue := 10;
     Util.Args.write_media := None;
     Util.Args.write_subtitles := None;
     Util.Args.proxy := None |}.

Definition args_file (path : string) : Util.Args.t :=
  {| Util.Args.text := None;
     Util.Args.file := Some path;
     Util.Args.list_voices := false;
     Util.Args.voice := "en-US-AriaNeural";
     Util.Args.rate := "+0%";
     Util.Args.volume := "+0%";
     Util.Args.pitch := "+0Hz";
     Util.Args.words_in_cue := 10;
     Util.Args.write_media := None;
     Util.Args.write_subtitles := None;
     Util.Args.proxy := None |}.

Definition args_list : Util.Args.t :=
  {| Util.Args.text := None;
     Util.Args.file := None;
     Util.Args.list_voices := true;
     Util.Args.voice := "en-US-AriaNeural";
     Util.Args.rate := "+0%";
     Util.Args.volume := "+0%";
     Util.Args.pitch := "+0Hz";
     Util.Args.words_in_cue := 10;
     Util.Args.write_media := None;
     Util.Args.write_subtitles := None;
     Util.Args.proxy := None |}.

(** * Lemmas *)

Example split_en_US : split "-" "en-US" = ["en"; "US"].
Proof. reflexivity. Qed.

Example split_fr : split "-" "fr" = ["fr"].
Proof. reflexivity. Qed.

Example split_three : split "-" "zh-Hans-CN" = ["zh"; "Hans"; "CN"].
Proof. reflexivity. Qed.

Example split_leading : split "-" "-x" = [""; "x"].
Proof. reflexivity. Qed.

Example py_eq_true_one : py_eq (VBool true) (VInt 1) = true.
Proof. reflexivity. Qed.

Example py_eq_case : py_eq (VStr "female") (VStr "Female") = false.
Proof. reflexivity. Qed.

Example create_AB : fst (create (Some [voice_A; voice_B]) offline) = ok directory_AB.
Proof. reflexivity. Qed.

Example create_fetches_AB : create None serving_AB
  = (ok directory_AB, {| requests := 1; endpoint := endpoint serving_AB |}).
Proof. reflexivity. Qed.

Example find_Female :
  fst (find {[ "Gender" := VStr "Female" ]} directory_AB) = ok [with_en voice_A].
Proof. reflexivity. Qed.

Example find_en_US_Male :
  fst (find {[ "Locale" := VStr "en-US"; "Gender" := VStr "Male" ]} directory_AB)
  = ok [].
Proof. reflexivity. Qed.

Example find_all :
  fst (find ∅ directory_AB) = ok [with_en voice_A; with_en voice_B].
Proof. reflexivity. Qed.

Example find_female_lowercase :
  fst (find {[ "Gender" := VStr "female" ]} directory_AB) = ok [].
Proof. reflexivity. Qed.

Example create_503 :
  fst (create None unavailable)
  = raise (RuntimeError
             "Failed to fetch voice list: 503, message='Service Unavailable'").
Proof. reflexivity. Qed.

Example create_not_json :
  fst (create None garbled)
  = raise (ValueError "Failed to decode the voice list response as JSON.").
Proof. reflexivity. Qed.

Example create_overwrites_language :
  fst (create (Some [voice_E]) offline)
  = ok {| voices := [ <["Language" := VStr "fr"]> voice_E ];
          is_initialized := true |}.
Proof. reflexivity. Qed.

(** ** Splitting a locale *)

Section Split.

Variable sep : ascii.

Lemma split_not_nil (s : string) : split sep s <> [].
Proof.
  induction s as [|c rest IH]; simpl; [discriminate|].
  destruct (Ascii.eqb c sep); [discriminate|].
  destruct (split sep rest); discriminate.
Qed.

Lemma index0_split (s : string) :
  exists segment, index0 (split sep s) = ok segment.
Proof.
  destruct (split sep s) as [|segment segments] eqn:E.
  - now apply split_not_nil in E.
  - now exists segment.
Qed.

Lemma split_without_sep (s : string) :
  contains sep s = false -> split sep s = [s].
Proof.
  induction s as [|c rest IH]; simpl; [reflexivity|].
  intros [Hc Hrest]%orb_false_iff.
  rewrite Hc, (IH Hrest).
  reflexivity.
Qed.

Lemma split_at_first_sep (pre post : string) :
  contains sep pre = false ->
  split sep (pre +:+ String sep post) = pre :: split sep post.
Proof.
  induction pre as [|c rest IH]; simpl.
  - intros _. now rewrite Ascii.eqb_refl.
  - intros [Hc Hrest]%orb_false_iff.
    now rewrite Hc, (IH Hrest).
Qed.

(** A string that contains the separator splits at its first occurrence. *)
Lemma contains_first_sep (s : string) :
  contains sep s = true ->
  exists pre post, s = pre +:+ String sep post /\ contains sep pre = false.
Proof.
  induction s as [|c rest IH]; simpl; [discriminate|].
  destruct (Ascii.eqb c sep) eqn:Hc; simpl.
  - intros _. apply Ascii.eqb_eq in Hc as ->.
    now exists EmptyString, rest.
  - intros (pre & post & -> & Hpre)%IH.
    exists (String c pre), post.
    split; [reflexivity|].
    simpl. now rewrite Hc.
Qed.

End Split.

(** ** Comprehensions that may raise *)

Section MapM.

Context {A B : Type} (f : A -> Result B).

Lemma mapM_ok_Forall2 (xs : list A) (ys : list B) :
  mapM f xs = ok ys <-> Forall2 (fun x y => f x = ok y) xs ys.
Proof.
  revert ys.
  induction xs as [|x xs IH]; intros ys; simpl.
  - split.
    + intros [= <-]. constructor.
    + intros H. inversion H. reflexivity.
  - split.
    + destruct (f x) as [e|y] eqn:Hx; simpl; [discriminate|].
      destruct (mapM f xs) as [e|ys'] eqn:Hxs; simpl; [discriminate|].
      intros [= <-].
      constructor; [assumption|].
      now apply IH.
    + intros H.
      inversion H as [|? y ? ys' Hx Hxs]; subst.
      rewrite Hx. simpl.
      apply IH in Hxs. rewrite Hxs. reflexivity.
Qed.

(** The exception of a failed comprehension is that of the first
    element on which the body raises. *)
Lemma mapM_raise_first (xs : list A) (e : PyExc) :
  mapM f xs = raise e <->
  exists before x after,
    xs = before ++ x :: after /\
    Forall (fun x' => exists y, f x' = ok y) before /\
    f x = raise e.
Proof.
  induction xs as [|x xs IH]; simpl.
  - split; [discriminate|].
    intros (before & x & after & H & _).
    now destruct before.
  - destruct (f x) as [e'|y] eqn:Hx; simpl.
    + split.
      * intros [= ->].
        exists [], x, xs. repeat split; [constructor | assumption].
      * intros ([|x' before] & x0 & after & [= ? ?] & Hbefore & Hx0); subst.
        -- rewrite Hx in Hx0. now injection Hx0 as ->.
        -- inversion Hbefore as [|? ? [y Hy] _]; subst.
           rewrite Hx in Hy. discriminate.
    + destruct (mapM f xs) as [e'|ys] eqn:Hxs; simpl.
      * split.
        -- intros [= ->].
           destruct IH as [IH _].
           destruct (IH eq_refl) as (before & x0 & after & Hsplit & Hbefore & Hx0).
           exists (x :: before), x0, after.
           rewrite Hsplit.
           repeat split; [|assumption].
           constructor; [now exists y | assumption].
        -- intros ([|x' before] & x0 & after & [= ? ?] & Hbefore & Hx0); subst.
           ++ rewrite Hx in Hx0. discriminate.
           ++ inversion Hbefore; subst.
              apply IH. now exists before, x0, after.
      * split; [discriminate|].
        intros ([|x' before] & x0 & after & [= ? ?] & Hbefore & Hx0); subst.
        -- rewrite Hx in Hx0. discriminate.
        -- inversion Hbefore; subst.
           assert (inr ys = raise e) as Habs; [|discriminate Habs].
           apply IH. now exists before, x0, after.
Qed.

End MapM.

(** ** The language of a voice *)

Lemma first_segment_total (locale : string) :
  exists language, first_segment locale language.
Proof. apply index0_split. Qed.

Lemma first_segment_dash (pre post language : string) :
  contains "-" pre = false ->
  first_segment (pre +:+ "-" +:+ post) language -> language = pre.
Proof.
  unfold first_segment. intros Hpre.
  change ("-" +:+ post) with (String "-" post).
  rewrite split_at_first_sep by assumption.
  now intros [= <-].
Qed.

Lemma first_segment_no_dash (locale language : string) :
  contains "-" locale = false ->
  first_segment locale language -> language = locale.
Proof.
  unfold first_segment. intros Hlocale.
  rewrite split_without_sep by assumption.
  now intros [= <-].
Qed.

Lemma with_language_ok (voice : Voice) (locale : string) :
  voice !! "Locale" = Some (VStr locale) ->
  exists language,
    first_segment locale language /\
    with_language voice = ok (<["Language" := VStr language]> voice).
Proof.
  intros Hlocale.
  destruct (first_segment_total locale) as [language Hlanguage].
  exists language. split; [assumption|].
  unfold with_language. rewrite Hlocale.
  unfold first_segment in Hlanguage. now rewrite Hlanguage.
Qed.

Lemma with_language_inv (voice voice' : Voice) :
  with_language voice = ok voice' ->
  exists locale language,
    voice !! "Locale" = Some (VStr locale) /\
    first_segment locale language /\
    voice' = <["Language" := VStr language]> voice.
Proof.
  unfold with_language.
  destruct (voice !! "Locale") as [[| | |locale| |]|] eqn:Hlocale;
    try discriminate.
  destruct (index0 (split "-" locale)) as [e|language] eqn:Hlanguage;
    simpl; [discriminate|].
  intros [= <-].
  now exists locale, language.
Qed.

Lemma with_language_raises (voice : Voice) (e : PyExc) :
  with_language voice = raise e ->
  (voice !! "Locale" = None /\ e = KeyError "Locale") \/
  (exists v, voice !! "Locale" = Some v /\ (forall s, v <> VStr s) /\
             e = AttributeError "split").
Proof.
  unfold with_language.
  destruct (voice !! "Locale") as [v|] eqn:Hlocale.
  - destruct v as [| | |locale| |];
      try (intros [= <-]; right; eexists; repeat split; congruence).
    destruct (index0_split "-" locale) as [language ->].
    discriminate.
  - intros [= <-]. now left.
Qed.

(** ** Unfolding [create] *)

Lemma init_voices (vs : list Voice) : voices (__init__ (Some vs)) = vs.
Proof. now destruct vs. Qed.

Lemma init_is_initialized (vs : option (list Voice)) :
  is_initialized (__init__ vs) = false.
Proof. reflexivity. Qed.

Lemma create_unfold (custom_voices : option (list Voice)) (w : World) :
  create custom_voices w =
  match fetch_or_seed custom_voices w with
  | (inl e, w') => (inl e, w')
  | (inr vs, w') =>
      (match mapM with_language vs with
       | inl e => raise e
       | inr normalized => ok {| voices := normalized; is_initialized := true |}
       end, w')
  end.
Proof.
  unfold create. unfold mbind at 1. unfold IO_bind.
  destruct (fetch_or_seed custom_voices w) as [[e|vs] w']; [reflexivity|].
  unfold mbind, IO_bind, mret, IO_ret, lift.
  rewrite init_voices.
  now destruct (mapM with_language vs).
Qed.

Lemma create_seeded (vs : list Voice) (w : World) :
  create (Some vs) w =
  (match mapM with_language vs with
   | inl e => raise e
   | inr normalized => ok {| voices := normalized; is_initialized := true |}
   end, w).
Proof. now rewrite create_unfold. Qed.

Lemma create_fetching (w : World) :
  create None w =
  match list_voices None w with
  | (inl e, w') => (inl e, w')
  | (inr vs, w') => create (Some vs) w'
  end.
Proof.
  rewrite create_unfold. simpl.
  destruct (list_voices None w) as [[e|vs] w']; [reflexivity|].
  now rewrite create_seeded.
Qed.

Lemma list_voices_requests (proxy : option string) (w : World) :
  requests (snd (list_voices proxy w)) = S (requests w).
Proof.
  unfold list_voices, list_voices_try, try_except, mbind, IO_bind, session_get,
    raise_for_status, response_json, lift, throw, mret, IO_ret.
  destruct (endpoint w proxy (requests w)) as [e|response]; simpl.
  - now destruct e.
  - destruct (400 <=? status response)%Z; simpl; [reflexivity|].
    destruct (json response) as [e|data]; simpl; [now destruct e | reflexivity].
Qed.

(** ** Equality against a queried string or a queried [None] *)

Lemma py_eq_str (v : Value) (s : string) :
  py_eq v (VStr s) = true <-> v = VStr s.
Proof.
  destruct v as [| | |s'| |]; simpl; try (split; [discriminate|congruence]).
  rewrite String.eqb_eq. split; congruence.
Qed.

Lemma py_eq_none (v : Value) : py_eq v VNone = true <-> v = VNone.
Proof. destruct v; simpl; split; congruence. Qed.

Lemma dict_get_str (voice : Voice) (key s : string) :
  py_eq (dict_get voice key) (VStr s) = true <-> voice !! key = Some (VStr s).
Proof.
  rewrite py_eq_str. unfold dict_get.
  destruct (voice !! key); split; congruence.
Qed.

Lemma dict_get_none (voice : Voice) (key : string) :
  py_eq (dict_get voice key) VNone = true <->
  voice !! key = None \/ voice !! key = Some VNone.
Proof.
  rewrite py_eq_none. unfold dict_get.
  destruct (voice !! key) as [v|]; split;
    [intros -> | intros [|] | | ]; auto; congruence.
Qed.

(** ** The filter of [find] *)

Lemma matches_get_matches (attributes : gmap string Value) (voice : Voice) :
  matches attributes voice = true <-> get_matches attributes voice.
Proof.
  unfold matches, get_matches.
  rewrite forallb_forall. split.
  - intros H key value Hkey.
    apply (H (key, value)).
    apply list_elem_of_In. now apply elem_of_map_to_list.
  - intros H [key value] Hin.
    apply H.
    apply elem_of_map_to_list. now apply list_elem_of_In.
Qed.

Lemma filter_matches (attributes : gmap string Value) (vs : list Voice) :
  List.filter (matches attributes) vs = filter (get_matches attributes) vs.
Proof.
  induction vs as [|voice vs IH]; [reflexivity|].
  simpl. rewrite filter_cons.
  destruct (matches attributes voice) eqn:Hm;
    destruct (decide (get_matches attributes voice)) as [Hg|Hg].
  - now rewrite IH.
  - apply matches_get_matches in Hm. contradiction.
  - apply matches_get_matches in Hg. congruence.
  - assumption.
Qed.

Lemma filter_get_matches_empty (vs : list Voice) :
  filter (get_matches ∅) vs = vs.
Proof.
  induction vs as [|voice vs IH]; [reflexivity|].
  rewrite filter_cons_True, IH; [reflexivity|].
  unfold get_matches. apply map_Forall_empty.
Qed.

Lemma size_zero_empty (attributes : gmap string Value) :
  Nat.eqb (size attributes) 0 = true <-> attributes = ∅.
Proof.
  rewrite Nat.eqb_eq. apply map_size_empty_iff.
Qed.

Lemma find_populated (attributes : gmap string Value) (self : VoicesManager) :
  is_initialized self = true ->
  find attributes self = (ok (filter (get_matches attributes) (voices self)),
                          self).
Proof.
  intros Hinit. unfold find. rewrite Hinit. simpl.
  destruct (Nat.eqb (size attributes) 0) eqn:Hsize.
  - apply size_zero_empty in Hsize as ->.
    now rewrite filter_get_matches_empty.
  - now rewrite filter_matches.
Qed.

(** * The query [find] *)

(** C1, as stated, fails: on the populated directory seeded with A and C,
    the non-empty query [Locale="en-US", Gender=None] returns C, a voice
    on which the queried attribute [Gender] is not present. *)
Lemma find_absent_attribute_counterexample :
  fst (create (Some [voice_A; voice_C]) offline) = ok directory_AC /\
  fst (find {[ "Locale" := VStr "en-US"; "Gender" := VNone ]} directory_AC)
  = ok [with_en voice_C] /\
  with_en voice_C !! "Gender" = None.
Proof. repeat split; reflexivity. Qed.

(** The same reading of [==] lets a queried [1] match a stored [True]. *)
Example find_true_matches_one :
  fst (find {[ "Preview" := VInt 1 ]}
         {| voices := [ {[ "Locale" := VStr "en-US"; "Preview" := VBool true ]} ];
            is_initialized := true |})
  = ok [ {[ "Locale" := VStr "en-US"; "Preview" := VBool true ]} ].
Proof. reflexivity. Qed.

(** C1, amended: on a populated directory [find] returns, in catalog
    order, exactly the voices for which [voice.get(name) == value] holds
    for every queried pair, where [get] reads an absent attribute as
    [None] and [==] is Python's. Against a queried string this means the
    attribute is present and holds that very string, case included;
    against a queried [None] it means the attribute is absent or holds
    [None]. *)
Theorem find_returns_get_matches
  (attributes : gmap string Value) (self : VoicesManager) :
  is_initialized self = true ->
  fst (find attributes self)
  = ok (filter (get_matches attributes) (voices self)) /\
  filter (get_matches attributes) (voices self) `sublist_of` voices self /\
  (forall voice,
      get_matches attributes voice <->
      forall key value,
        attributes !! key = Some value ->
        py_eq (dict_get voice key) value = true) /\
  (forall (voice : Voice) key s,
      py_eq (dict_get voice key) (VStr s) = true <->
      voice !! key = Some (VStr s)) /\
  (forall (voice : Voice) key,
      py_eq (dict_get voice key) VNone = true <->
      voice !! key = None \/ voice !! key = Some VNone).
Proof.
  intros Hinit.
  rewrite find_populated by assumption.
  split; [reflexivity|].
  split; [apply sublist_filter|].
  split; [reflexivity|].
  split; [apply dict_get_str | apply dict_get_none].
Qed.

Lemma find_returns_get_matches_witness :
  is_initialized directory_AB = true /\
  fst (find {[ "Gender" := VStr "Female" ]} directory_AB)
  = ok (filter (get_matches {[ "Gender" := VStr "Female" ]})
               (voices directory_AB)).
Proof.
  split; [reflexivity|].
  apply (find_returns_get_matches {[ "Gender" := VStr "Female" ]} directory_AB).
  reflexivity.
Defined.

(** C2, as stated, fails: C has no [Gender], and the query [Gender=None]
    on the populated directory seeded with C returns it. *)
Lemma find_none_query_counterexample :
  fst (create (Some [voice_C]) offline) = ok directory_C /\
  with_en voice_C !! "Gender" = None /\
  fst (find {[ "Gender" := VNone ]} directory_C) = ok [with_en voice_C].
Proof. repeat split; reflexivity. Qed.

(** C2, amended: on a populated directory, a voice that lacks a queried
    attribute is not in the result of [find] whenever the value queried
    for that attribute is not [None]. *)
Theorem find_excludes_missing_attribute
  (attributes : gmap string Value) (self : VoicesManager)
  (key : string) (value : Value) (voice : Voice) (found : list Voice) :
  is_initialized self = true ->
  attributes !! key = Some value ->
  value <> VNone ->
  voice !! key = None ->
  fst (find attributes self) = ok found ->
  voice ∉ found.
Proof.
  intros Hinit Hkey Hvalue Hvoice.
  rewrite find_populated by assumption.
  intros [= <-].
  rewrite list_elem_of_filter.
  intros [Hmatch _].
  specialize (Hmatch key value Hkey).
  unfold dict_get in Hmatch. rewrite Hvoice in Hmatch.
  destruct value; simpl in Hmatch; congruence.
Qed.

Lemma find_excludes_missing_attribute_witness :
  (is_initialized directory_AC = true /\
   ({[ "Gender" := VStr "Female" ]} : gmap string Value) !! "Gender"
   = Some (VStr "Female") /\
   VStr "Female" <> VNone /\
   with_en voice_C !! "Gender" = None /\
   fst (find {[ "Gender" := VStr "Female" ]} directory_AC)
   = ok [with_en voice_A]) /\
  with_en voice_C ∉ [with_en voice_A].
Proof.
  assert (VStr "Female" <> VNone) as Hvalue by discriminate.
  split.
  - repeat split; [assumption].
  - apply (find_excludes_missing_attribute
             {[ "Gender" := VStr "Female" ]} directory_AC
             "Gender" (VStr "Female"));
      [reflexivity | reflexivity | exact Hvalue | reflexivity | reflexivity].
Defined.

(** C4: on a manager whose flag is not set, as the constructor leaves it,
    [find] raises the [RuntimeError] of its guard whatever the attributes
    are, returns no list, and leaves the manager as it was. *)
Theorem find_before_create_raises
  (attributes : gmap string Value) (self : VoicesManager) :
  is_initialized self = false ->
  find attributes self
  = (raise (RuntimeError
              "VoicesManager.find() called before VoicesManager.create()"),
     self).
Proof. intros Hinit. unfold find. now rewrite Hinit. Qed.

Lemma find_before_create_raises_witness :
  is_initialized (__init__ (Some [voice_A; voice_B])) = false /\
  find ∅ (__init__ (Some [voice_A; voice_B]))
  = (raise (RuntimeError
              "VoicesManager.find() called before VoicesManager.create()"),
     __init__ (Some [voice_A; voice_B])).
Proof.
  split; [reflexivity|].
  apply (find_before_create_raises ∅ (__init__ (Some [voice_A; voice_B]))).
  reflexivity.
Defined.

(** C5: on a populated directory, [find] without attributes returns the
    whole sequence of voices, in order. *)
Theorem find_no_attributes_returns_all (self : VoicesManager) :
  is_initialized self = true ->
  fst (find ∅ self) = ok (voices self).
Proof. intros Hinit. unfold find. now rewrite Hinit. Qed.

Lemma find_no_attributes_returns_all_witness :
  is_initialized directory_AB = true /\
  fst (find ∅ directory_AB) = ok (voices directory_AB).
Proof.
  split; [reflexivity|].
  apply (find_no_attributes_returns_all directory_AB).
  reflexivity.
Defined.

(** C9: on a populated directory, a call of [find] returns a list and
    leaves the manager unchanged, and a second call with the same
    attributes on the manager the first one left returns the same list. *)
Theorem find_twice_same
  (attributes : gmap string Value) (self : VoicesManager) :
  is_initialized self = true ->
  exists found,
    find attributes self = (ok found, self) /\
    find attributes (snd (find attributes self)) = (ok found, self).
Proof.
  intros Hinit.
  exists (filter (get_matches attributes) (voices self)).
  rewrite find_populated by assumption.
  split; [reflexivity|].
  simpl. now apply find_populated.
Qed.

Lemma find_twice_same_witness :
  is_initialized directory_AB = true /\
  exists found,
    find {[ "Gender" := VStr "Male" ]} directory_AB = (ok found, directory_AB) /\
    find {[ "Gender" := VStr "Male" ]}
         (snd (find {[ "Gender" := VStr "Male" ]} directory_AB))
    = (ok found, directory_AB).
Proof.
  split; [reflexivity|].
  apply (find_twice_same {[ "Gender" := VStr "Male" ]} directory_AB).
  reflexivity.
Defined.

(** * Population by [create] *)

Lemma first_segment_derived (raw : Voice) (locale language : string) :
  raw !! "Locale" = Some (VStr locale) ->
  first_segment locale language ->
  language_derived raw (<["Language" := VStr language]> raw).
Proof.
  intros Hlocale Hlanguage.
  exists locale, language.
  split; [assumption|].
  split; [apply lookup_insert_eq|].
  split.
  - intros pre post -> Hpre.
    now apply (first_segment_dash pre post).
  - intros Hnone. now apply first_segment_no_dash.
Qed.

Lemma with_language_attached (raw voice : Voice) :
  with_language raw = ok voice -> language_attached raw voice.
Proof.
  intros (locale & language & Hlocale & Hlanguage & ->)%with_language_inv.
  split.
  - intros key Hkey. now apply lookup_insert_ne.
  - exists locale, language.
    repeat split; [assumption | assumption | apply lookup_insert_eq].
Qed.

Lemma with_language_derived (raw voice : Voice) :
  with_language raw = ok voice -> language_derived raw voice.
Proof.
  intros (locale & language & Hlocale & Hlanguage & ->)%with_language_inv.
  now apply (first_segment_derived raw locale language).
Qed.

Lemma with_language_normalized (raw voice : Voice) :
  with_language raw = ok voice -> normalized voice.
Proof.
  intros (locale & language & Hlocale & Hlanguage & ->)%with_language_inv.
  destruct (first_segment_derived raw locale language Hlocale Hlanguage)
    as (locale' & language' & Hlocale' & Hrest).
  exists locale', language'.
  split; [|assumption].
  rewrite lookup_insert_ne by discriminate. assumption.
Qed.

Lemma mapM_with_language_normalized (raw found : list Voice) :
  mapM with_language raw = ok found -> Forall normalized found.
Proof.
  intros H%mapM_ok_Forall2.
  induction H as [|voice0 voice raw found Hvoice _ IH]; constructor.
  - now apply with_language_normalized in Hvoice.
  - assumption.
Qed.

(** C3, as stated, fails: a seeded voice without [Locale] makes [create]
    raise [KeyError] instead of leaving the language out. *)
Lemma create_without_locale_counterexample :
  voice_D !! "Locale" = None /\
  fst (create (Some [voice_D]) offline) = raise (KeyError "Locale").
Proof. split; reflexivity. Qed.

(** C3, amended: when [create] returns a manager, every voice it holds
    carries as [Language] the part of the [Locale] of the record it comes
    from that precedes the first dash, and the whole [Locale] when that
    has no dash. When [create] raises during normalization, the first
    record on which the derivation fails either has no [Locale], and the
    exception is [KeyError], or has a [Locale] that is not a string, and
    the exception is [AttributeError]; in particular a record without
    [Locale] always makes [create] raise. *)
Theorem create_derives_language
  (custom_voices : option (list Voice)) (w w' : World) (raw : list Voice) :
  fetch_or_seed custom_voices w = (ok raw, w') ->
  match fst (create custom_voices w) with
  | inr manager => Forall2 language_derived raw (voices manager)
  | inl e =>
      exists before voice after,
        raw = before ++ voice :: after /\
        Forall (fun voice' => exists locale, voice' !! "Locale" = Some (VStr locale))
               before /\
        ((voice !! "Locale" = None /\ e = KeyError "Locale") \/
         (exists v, voice !! "Locale" = Some v /\ (forall s, v <> VStr s) /\
                    e = AttributeError "split"))
  end /\
  (Exists (fun voice => voice !! "Locale" = None) raw ->
   exists e, fst (create custom_voices w) = raise e).
Proof.
  intros Hraw.
  rewrite create_unfold, Hraw. simpl.
  destruct (mapM with_language raw) as [e|found] eqn:Hmap.
  - split; [|intros _; now exists e].
    apply mapM_raise_first in Hmap
      as (before & voice & after & -> & Hbefore & Hvoice).
    exists before, voice, after.
    split; [reflexivity|].
    split; [|now apply with_language_raises].
    eapply Forall_impl; [exact Hbefore|].
    intros voice' [y (locale & _ & Hlocale & _)%with_language_inv].
    now exists locale.
  - split.
    + apply mapM_ok_Forall2 in Hmap.
      eapply Forall2_impl; [exact Hmap|].
      intros voice0 voice. apply with_language_derived.
    + intros (voice & Hin & Hnone)%Exists_exists.
      apply mapM_ok_Forall2 in Hmap.
      apply list_elem_of_lookup in Hin as [i Hi].
      destruct (Forall2_lookup_l _ _ _ _ _ Hmap Hi) as (voice' & _ & Hvoice).
      apply with_language_inv in Hvoice as (locale & _ & Hlocale & _).
      congruence.
Qed.

Lemma create_derives_language_witness :
  (fetch_or_seed (Some [voice_A; voice_B]) offline
   = (ok [voice_A; voice_B], offline) /\
   Forall2 language_derived [voice_A; voice_B] (voices directory_AB)) /\
  (fetch_or_seed (Some [voice_A; voice_D]) offline
   = (ok [voice_A; voice_D], offline) /\
   Exists (fun voice : Voice => voice !! "Locale" = None) [voice_A; voice_D] /\
   exists e, fst (create (Some [voice_A; voice_D]) offline) = raise e).
Proof.
  split.
  - split; [reflexivity|].
    apply (create_derives_language (Some [voice_A; voice_B]) offline offline
             [voice_A; voice_B]).
    reflexivity.
  - assert (Exists (fun voice : Voice => voice !! "Locale" = None)
                   [voice_A; voice_D]) as Hexists.
    { apply Exists_cons_tl, Exists_cons_hd. reflexivity. }
    split; [reflexivity|].
    split; [exact Hexists|].
    apply (create_derives_language (Some [voice_A; voice_D]) offline offline
             [voice_A; voice_D]); [reflexivity | exact Hexists].
Defined.

(** C6: [create] with a seed, empty or not, leaves the world as it found
    it: the count of requests does not move, whereas every call of
    [list_voices] moves it by one. *)
Theorem create_seeded_no_request (seed : list Voice) (w : World) :
  snd (create (Some seed) w) = w /\
  requests (snd (create (Some seed) w)) = requests w /\
  (forall proxy w0, requests (snd (list_voices proxy w0)) = S (requests w0)).
Proof.
  rewrite create_seeded. simpl.
  repeat split. apply list_voices_requests.
Qed.

Example create_empty_seed :
  create (Some []) serving_AB
  = (ok {| voices := []; is_initialized := true |}, serving_AB).
Proof. reflexivity. Qed.

Example create_unseeded_requests :
  requests (snd (create None serving_AB)) = 1.
Proof. reflexivity. Qed.

(** C8: the flag is set after the whole comprehension has run. Among the
    values the local [manager] takes inside [create], one with the flag
    set holds normalized voices only; the manager [create] returns is the
    last of them, has the flag set and holds normalized voices only; a
    manager fresh from the constructor has the flag unset; and when
    [list_voices] raises, [create] raises that very exception and returns
    no manager. *)
Theorem create_all_or_nothing :
  (forall voices0 manager,
      manager ∈ manager_states voices0 ->
      is_initialized manager = true ->
      Forall normalized (voices manager)) /\
  (forall custom_voices w manager w',
      create custom_voices w = (ok manager, w') ->
      is_initialized manager = true /\
      Forall normalized (voices manager) /\
      exists voices0,
        fst (fetch_or_seed custom_voices w) = ok voices0 /\
        last (manager_states voices0) = Some manager) /\
  (forall voices0, is_initialized (__init__ voices0) = false) /\
  (forall w e w',
      list_voices None w = (raise e, w') ->
      create None w = (raise e, w')).
Proof.
  repeat split.
  - intros voices0 manager Hin Hinit.
    unfold manager_states in Hin. rewrite init_voices in Hin.
    destruct (mapM with_language voices0) as [e|found] eqn:Hmap.
    + apply list_elem_of_singleton in Hin as ->. discriminate.
    + apply elem_of_cons in Hin as [->|Hin]; [discriminate|].
      apply elem_of_cons in Hin as [->|Hin]; [discriminate|].
      apply list_elem_of_singleton in Hin as ->.
      simpl. now apply mapM_with_language_normalized in Hmap.
  - revert H. rewrite create_unfold.
    destruct (fetch_or_seed custom_voices w) as [[e|voices0] w0];
      [discriminate|].
    destruct (mapM with_language voices0); [discriminate|].
    now intros [= <- _].
  - revert H. rewrite create_unfold.
    destruct (fetch_or_seed custom_voices w) as [[e|voices0] w0];
      [discriminate|].
    destruct (mapM with_language voices0) as [e|found] eqn:Hmap;
      [discriminate|].
    intros [= <- _]. simpl.
    now apply mapM_with_language_normalized in Hmap.
  - revert H. rewrite create_unfold.
    destruct (fetch_or_seed custom_voices w) as [[e|voices0] w0];
      [discriminate|].
    destruct (mapM with_language voices0) as [e|found] eqn:Hmap;
      [discriminate|].
    intros [= <- _].
    exists voices0. split; [reflexivity|].
    unfold manager_states. rewrite init_voices, Hmap. reflexivity.
  - intros w e w' Hfetch.
    rewrite create_fetching, Hfetch. reflexivity.
Qed.

Lemma create_all_or_nothing_witness :
  (directory_AB ∈ manager_states [voice_A; voice_B] /\
   is_initialized directory_AB = true /\
   Forall normalized (voices directory_AB)) /\
  (create None serving_AB
   = (ok directory_AB, {| requests := 1; endpoint := endpoint serving_AB |}) /\
   exists voices0,
     fst (fetch_or_seed None serving_AB) = ok voices0 /\
     last (manager_states voices0) = Some directory_AB) /\
  (list_voices None unavailable
   = (raise (RuntimeError
       "Failed to fetch voice list: 503, message='Service Unavailable'"),
      {| requests := 1; endpoint := endpoint unavailable |}) /\
   create None unavailable
   = (raise (RuntimeError
       "Failed to fetch voice list: 503, message='Service Unavailable'"),
      {| requests := 1; endpoint := endpoint unavailable |})).
Proof.
  destruct create_all_or_nothing as (Hstates & Hcreate & _ & Hfetch).
  assert (directory_AB ∈ manager_states [voice_A; voice_B]) as Hin.
  { apply list_elem_of_further, list_elem_of_further, list_elem_of_here. }
  split; [|split].
  - split; [exact Hin|].
    split; [reflexivity|].
    apply (Hstates [voice_A; voice_B] directory_AB Hin). reflexivity.
  - split; [reflexivity|].
    apply (Hcreate None serving_AB directory_AB
             {| requests := 1; endpoint := endpoint serving_AB |}).
    reflexivity.
  - split; [reflexivity|].
    apply (Hfetch unavailable). reflexivity.
Defined.

Example manager_states_AB :
  manager_states [voice_A; voice_B]
  = [ {| voices := [voice_A; voice_B]; is_initialized := false |};
      {| voices := [with_en voice_A; with_en voice_B];
         is_initialized := false |};
      directory_AB ].
Proof. reflexivity. Qed.

Example manager_states_AD :
  manager_states [voice_A; voice_D]
  = [ {| voices := [voice_A; voice_D]; is_initialized := false |} ].
Proof. reflexivity. Qed.

Example create_offline :
  create None offline
  = (raise (RuntimeError "Failed to fetch voice list: Cannot connect to host"),
     {| requests := 1; endpoint := endpoint offline |}).
Proof. reflexivity. Qed.

(** C10: when [create] returns a manager, its voices correspond one to
    one, in order, to the records population started from; each is the
    record it comes from with [Language] set to the first segment of the
    record's [Locale], whatever the record held under [Language] before,
    and agrees with that record on every other key. *)
Theorem create_preserves_other_attributes
  (custom_voices : option (list Voice)) (w w' : World)
  (raw : list Voice) (manager : VoicesManager) :
  fetch_or_seed custom_voices w = (ok raw, w') ->
  fst (create custom_voices w) = ok manager ->
  length (voices manager) = length raw /\
  Forall2 language_attached raw (voices manager).
Proof.
  intros Hraw.
  rewrite create_unfold, Hraw. simpl.
  destruct (mapM with_language raw) as [e|found] eqn:Hmap; [discriminate|].
  intros [= <-]. simpl.
  apply mapM_ok_Forall2 in Hmap.
  split.
  - symmetry. eapply Forall2_length. exact Hmap.
  - eapply Forall2_impl; [exact Hmap|].
    intros voice0 voice. apply with_language_attached.
Qed.

Lemma create_preserves_other_attributes_witness :
  (fetch_or_seed (Some [voice_A; voice_E]) offline
   = (ok [voice_A; voice_E], offline) /\
   fst (create (Some [voice_A; voice_E]) offline)
   = ok {| voices := [with_en voice_A; <["Language" := VStr "fr"]> voice_E];
           is_initialized := true |}) /\
  length [with_en voice_A; <["Language" := VStr "fr"]> voice_E]
  = length [voice_A; voice_E] /\
  Forall2 language_attached [voice_A; voice_E]
          [with_en voice_A; <["Language" := VStr "fr"]> voice_E].
Proof.
  split; [split; reflexivity|].
  apply (create_preserves_other_attributes
           (Some [voice_A; voice_E]) offline offline [voice_A; voice_E]
           {| voices := [with_en voice_A; <["Language" := VStr "fr"]> voice_E];
              is_initialized := true |});
    reflexivity.
Defined.

(** * The fetcher [list_voices] *)

(** C7, as stated, fails: when the request runs into the session timeout,
    [list_voices] lets [asyncio.TimeoutError] through; what the caller
    sees is neither the [RuntimeError] nor the [ValueError]. *)
Lemma list_voices_timeout_counterexample :
  endpoint timing_out None 0 = raise (OtherException "asyncio.TimeoutError") /\
  fst (list_voices None timing_out)
  = raise (OtherException "asyncio.TimeoutError").
Proof. split; reflexivity. Qed.

(** C7, amended: [list_voices] returns the decoded body unchanged when
    the response arrives with a status below 400 and decodes. It raises
    [RuntimeError], with the cause in its message, exactly for the
    [aiohttp.ClientError]s of the [try] body, among them the one that
    [raise_for_status] raises for a status of 400 or more; it raises
    [ValueError], another type, for a [json.JSONDecodeError]; every other
    exception of the body reaches the caller unchanged. *)
Theorem list_voices_outcome (proxy : option string) (w : World) :
  (forall response data,
      endpoint w proxy (requests w) = ok response ->
      (status response < 400)%Z ->
      json response = ok data ->
      fst (list_voices proxy w) = ok data) /\
  (forall cause,
      fst (list_voices_try proxy w) = raise (ClientError cause) ->
      fst (list_voices proxy w)
      = raise (RuntimeError ("Failed to fetch voice list: " +:+ cause))) /\
  (fst (list_voices_try proxy w) = raise JSONDecodeError ->
   fst (list_voices proxy w)
   = raise (ValueError "Failed to decode the voice list response as JSON.")) /\
  (forall e,
      fst (list_voices_try proxy w) = raise e ->
      (forall cause, e <> ClientError cause) ->
      e <> JSONDecodeError ->
      fst (list_voices proxy w) = raise e) /\
  (forall e,
      endpoint w proxy (requests w) = raise e ->
      fst (list_voices_try proxy w) = raise e) /\
  (forall response,
      endpoint w proxy (requests w) = ok response ->
      (400 <= status response)%Z ->
      fst (list_voices_try proxy w)
      = raise (ClientError (status_error response))) /\
  (forall response,
      endpoint w proxy (requests w) = ok response ->
      (status response < 400)%Z ->
      fst (list_voices_try proxy w) = json response) /\
  (forall msg msg', RuntimeError msg <> ValueError msg').
Proof.
  assert (forall e,
             endpoint w proxy (requests w) = raise e ->
             fst (list_voices_try proxy w) = raise e) as Hget.
  { intros e He.
    unfold list_voices_try, mbind, IO_bind, session_get.
    now rewrite He. }
  assert (forall response,
             endpoint w proxy (requests w) = ok response ->
             (400 <= status response)%Z ->
             fst (list_voices_try proxy w)
             = raise (ClientError (status_error response))) as Hstatus.
  { intros response Hresponse Hge.
    unfold list_voices_try, mbind, IO_bind, session_get, raise_for_status.
    rewrite Hresponse. unfold ok. cbv beta iota.
    apply Z.leb_le in Hge. now rewrite Hge. }
  assert (forall response,
             endpoint w proxy (requests w) = ok response ->
             (status response < 400)%Z ->
             fst (list_voices_try proxy w) = json response) as Hjson.
  { intros response Hresponse Hlt.
    unfold list_voices_try, mbind, IO_bind, session_get, raise_for_status,
      response_json, lift, mret, IO_ret.
    rewrite Hresponse. unfold ok. cbv beta iota.
    apply Z.leb_gt in Hlt. rewrite Hlt. cbv beta iota.
    now destruct (json response). }
  assert (forall r,
             fst (list_voices_try proxy w) = r ->
             fst (list_voices proxy w)
             = match r with
               | inl (ClientError cause) =>
                   raise (RuntimeError
                            ("Failed to fetch voice list: " +:+ cause))
               | inl JSONDecodeError =>
                   raise (ValueError
                       "Failed to decode the voice list response as JSON.")
               | other => other
               end) as Htry.
  { intros r <-.
    unfold list_voices, try_except, throw.
    destruct (list_voices_try proxy w) as [[e|data] w0]; [|reflexivity].
    now destruct e. }
  repeat split.
  - intros response data Hresponse Hlt Hdata.
    rewrite (Htry (ok data)); [reflexivity|].
    rewrite (Hjson response) by assumption. assumption.
  - intros cause Hbody. now rewrite (Htry _ Hbody).
  - intros Hbody. now rewrite (Htry _ Hbody).
  - intros e Hbody Hclient Hdecode.
    rewrite (Htry _ Hbody).
    destruct e; try reflexivity.
    + now destruct (Hclient cause).
    + now destruct Hdecode.
  - exact Hget.
  - exact Hstatus.
  - exact Hjson.
  - intros msg msg'. discriminate.
Qed.

Lemma list_voices_outcome_witness :
  (endpoint unavailable None (requests unavailable)
   = ok {| status := 503;
           status_error := "503, message='Service Unavailable'";
           json := raise JSONDecodeError |} /\
   fst (list_voices_try None unavailable)
   = raise (ClientError "503, message='Service Unavailable'") /\
   fst (list_voices None unavailable)
   = raise (RuntimeError
              "Failed to fetch voice list: 503, message='Service Unavailable'")) /\
  (fst (list_voices_try None garbled) = raise JSONDecodeError /\
   fst (list_voices None garbled)
   = raise (ValueError "Failed to decode the voice list response as JSON.")) /\
  (fst (list_voices_try None timing_out)
   = raise (OtherException "asyncio.TimeoutError") /\
   fst (list_voices None timing_out)
   = raise (OtherException "asyncio.TimeoutError")) /\
  (json {| status := 200; status_error := "200, message='OK'";
           json := ok [voice_A; voice_B] |} = ok [voice_A; voice_B] /\
   fst (list_voices None serving_AB) = ok [voice_A; voice_B]).
Proof.
  split; [|split; [|split]].
  - destruct (list_voices_outcome None unavailable)
      as (_ & Hclient & _ & _ & _ & Hstatus & _).
    split; [reflexivity|].
    split.
    + apply (Hstatus {| status := 503;
                        status_error := "503, message='Service Unavailable'";
                        json := raise JSONDecodeError |});
        [reflexivity | simpl; lia].
    + apply (Hclient "503, message='Service Unavailable'"). reflexivity.
  - destruct (list_voices_outcome None garbled) as (_ & _ & Hdecode & _).
    split; [reflexivity|].
    apply Hdecode. reflexivity.
  - destruct (list_voices_outcome None timing_out) as (_ & _ & _ & Hother & _).
    split; [reflexivity|].
    apply (Hother (OtherException "asyncio.TimeoutError"));
      [reflexivity | discriminate | discriminate].
  - destruct (list_voices_outcome None serving_AB) as (Hok & _).
    split; [reflexivity|].
    apply (Hok {| status := 200; status_error := "200, message='OK'";
                  json := ok [voice_A; voice_B] |} [voice_A; voice_B]);
      [reflexivity | simpl; lia | reflexivity].
Defined.

Example list_voices_serving :
  fst (list_voices None serving_AB) = ok [voice_A; voice_B].
Proof. reflexivity. Qed.

Example list_voices_300 :
  fst (list_voices None undecided) = ok [voice_A; voice_B].
Proof. reflexivity. Qed.

Example list_voices_503 :
  fst (list_voices None unavailable)
  = raise (RuntimeError
             "Failed to fetch voice list: 503, message='Service Unavailable'").
Proof. reflexivity. Qed.

Example list_voices_not_json :
  fst (list_voices None garbled)
  = raise (ValueError "Failed to decode the voice list response as JSON.").
Proof. reflexivity. Qed.

(** * Further properties of the directory *)

Lemma filter_stronger_sublist {A} (P Q : A -> Prop)
  `{!forall x, Decision (P x), !forall x, Decision (Q x)} (l : list A) :
  (forall x, P x -> Q x) -> filter P l `sublist_of` filter Q l.
Proof.
  intros HPQ.
  induction l as [|x l IH]; [constructor|].
  rewrite !filter_cons.
  destruct (decide (P x)) as [HP|HP].
  - rewrite decide_True by auto. now constructor.
  - destruct (decide (Q x)); [now constructor | assumption].
Qed.

(** X1: on a populated directory, a query with further attributes returns
    a sublist, in the same order, of what the query without them
    returns. *)
Theorem find_more_attributes_sublist
  (fewer more : gmap string Value) (self : VoicesManager)
  (found_fewer found_more : list Voice) :
  is_initialized self = true ->
  fewer ⊆ more ->
  fst (find fewer self) = ok found_fewer ->
  fst (find more self) = ok found_more ->
  found_more `sublist_of` found_fewer.
Proof.
  intros Hinit Hsub.
  rewrite !find_populated by assumption.
  intros [= <-] [= <-].
  apply filter_stronger_sublist.
  intros voice Hmore key value Hkey.
  apply Hmore.
  now apply (lookup_weaken fewer more).
Qed.

Lemma find_more_attributes_sublist_witness :
  (is_initialized directory_AB = true /\
   (∅ : gmap string Value) ⊆ {[ "Gender" := VStr "Female" ]} /\
   fst (find ∅ directory_AB) = ok [with_en voice_A; with_en voice_B] /\
   fst (find {[ "Gender" := VStr "Female" ]} directory_AB)
   = ok [with_en voice_A]) /\
  [with_en voice_A] `sublist_of` [with_en voice_A; with_en voice_B].
Proof.
  assert ((∅ : gmap string Value) ⊆ {[ "Gender" := VStr "Female" ]})
    as Hsub by apply map_empty_subseteq.
  split; [repeat split; assumption|].
  apply (find_more_attributes_sublist
           ∅ {[ "Gender" := VStr "Female" ]} directory_AB);
    [reflexivity | exact Hsub | reflexivity | reflexivity].
Defined.

(** What [create] leaves in every voice of the manager it returns: a
    string locale, its first segment as language, and with that a voice
    that normalization maps to itself. *)
Lemma with_language_fixed (raw voice : Voice) :
  with_language raw = ok voice ->
  exists locale language,
    voice !! "Locale" = Some (VStr locale) /\
    voice !! "Language" = Some (VStr language) /\
    first_segment locale language /\
    with_language voice = ok voice.
Proof.
  intros (locale & language & Hlocale & Hlanguage & ->)%with_language_inv.
  exists locale, language.
  assert (<["Language" := VStr language]> raw !! "Locale"
          = Some (VStr locale)) as Hlocale'.
  { rewrite lookup_insert_ne by discriminate. assumption. }
  split; [assumption|].
  split; [apply lookup_insert_eq|].
  split; [assumption|].
  unfold with_language. rewrite Hlocale'.
  unfold first_segment in Hlanguage. rewrite Hlanguage. simpl.
  now rewrite insert_insert_eq.
Qed.

Lemma create_voices_fixed
  (custom_voices : option (list Voice)) (w w' : World)
  (manager : VoicesManager) :
  create custom_voices w = (ok manager, w') ->
  is_initialized manager = true /\
  Forall (fun voice =>
            exists locale language,
              voice !! "Locale" = Some (VStr locale) /\
              voice !! "Language" = Some (VStr language) /\
              first_segment locale language /\
              with_language voice = ok voice)
         (voices manager).
Proof.
  rewrite create_unfold.
  destruct (fetch_or_seed custom_voices w) as [[e|raw] w0]; [discriminate|].
  destruct (mapM with_language raw) as [e|found] eqn:Hmap; [discriminate|].
  intros [= <- _]. simpl.
  split; [reflexivity|].
  apply mapM_ok_Forall2 in Hmap.
  induction Hmap as [|voice0 voice raw found Hvoice _ IH]; constructor.
  - now apply with_language_fixed in Hvoice.
  - assumption.
Qed.

Lemma mapM_fixed {A} (f : A -> Result A) (xs : list A) :
  Forall (fun x => f x = ok x) xs -> mapM f xs = ok xs.
Proof.
  intros H. apply mapM_ok_Forall2.
  induction H; constructor; assumption.
Qed.

Lemma create_seeded_fixed (vs : list Voice) (w : World) :
  Forall (fun voice => with_language voice = ok voice) vs ->
  create (Some vs) w = (ok {| voices := vs; is_initialized := true |}, w).
Proof.
  intros H. rewrite create_seeded.
  now rewrite (mapM_fixed with_language vs H).
Qed.

(** X2: population is idempotent. Seeding [create] with the voices of a
    manager that [create] returned gives that manager back, and issues no
    request. *)
Theorem create_reseed_idempotent
  (custom_voices : option (list Voice)) (w w' w2 : World)
  (manager : VoicesManager) :
  create custom_voices w = (ok manager, w') ->
  create (Some (voices manager)) w2 = (ok manager, w2).
Proof.
  intros [Hinit Hfixed]%create_voices_fixed.
  rewrite create_seeded_fixed.
  - destruct manager as [vs flag]. simpl in *. now subst flag.
  - eapply Forall_impl; [exact Hfixed|].
    now intros voice (locale & language & _ & _ & _ & Hvoice).
Qed.

Lemma create_reseed_idempotent_witness :
  create None serving_AB
  = (ok directory_AB, {| requests := 1; endpoint := endpoint serving_AB |}) /\
  create (Some (voices directory_AB)) offline = (ok directory_AB, offline).
Proof.
  split; [reflexivity|].
  apply (create_reseed_idempotent None serving_AB
           {| requests := 1; endpoint := endpoint serving_AB |} offline
           directory_AB).
  reflexivity.
Defined.

Lemma get_matches_union (a b : gmap string Value) (voice : Voice) :
  a ##ₘ b ->
  get_matches (a ∪ b) voice <-> get_matches b voice /\ get_matches a voice.
Proof.
  intros Hdisjoint. unfold get_matches.
  rewrite map_Forall_union by assumption. tauto.
Qed.

(** X3: queries compose. Seeding [create] with what [find] returned for
    the attributes [a] gives a directory holding exactly those voices, and
    querying it for [b], whose keys are not among those of [a], returns
    what the first directory returns for [a] and [b] together. *)
Theorem find_narrowing_composes
  (custom_voices : option (list Voice)) (w w' w2 : World)
  (manager : VoicesManager) (a b : gmap string Value) (found : list Voice) :
  create custom_voices w = (ok manager, w') ->
  a ##ₘ b ->
  fst (find a manager) = ok found ->
  exists narrowed,
    create (Some found) w2 = (ok narrowed, w2) /\
    voices narrowed = found /\
    fst (find b narrowed) = fst (find (a ∪ b) manager).
Proof.
  intros [Hinit Hfixed]%create_voices_fixed Hdisjoint.
  rewrite find_populated by assumption.
  intros [= <-].
  exists {| voices := filter (get_matches a) (voices manager);
            is_initialized := true |}.
  split; [|split; [reflexivity|]].
  - apply create_seeded_fixed.
    apply Forall_forall. intros voice [_ Hin]%list_elem_of_filter.
    rewrite Forall_forall in Hfixed.
    now destruct (Hfixed voice Hin) as (locale & language & _ & _ & _ & Hvoice).
  - rewrite !find_populated by (assumption || reflexivity).
    simpl. f_equal.
    rewrite list_filter_filter.
    apply list_filter_iff. intros voice.
    symmetry. now apply get_matches_union.
Qed.

Lemma find_narrowing_composes_witness :
  (create None serving_AB
   = (ok directory_AB, {| requests := 1; endpoint := endpoint serving_AB |}) /\
   ({[ "Language" := VStr "en" ]} : gmap string Value)
   ##ₘ {[ "Gender" := VStr "Male" ]} /\
   fst (find {[ "Language" := VStr "en" ]} directory_AB)
   = ok [with_en voice_A; with_en voice_B]) /\
  exists narrowed,
    create (Some [with_en voice_A; with_en voice_B]) offline
    = (ok narrowed, offline) /\
    voices narrowed = [with_en voice_A; with_en voice_B] /\
    fst (find {[ "Gender" := VStr "Male" ]} narrowed)
    = fst (find ({[ "Language" := VStr "en" ]} ∪ {[ "Gender" := VStr "Male" ]})
             directory_AB).
Proof.
  assert (({[ "Language" := VStr "en" ]} : gmap string Value)
          ##ₘ {[ "Gender" := VStr "Male" ]}) as Hdisjoint.
  { apply map_disjoint_singleton_l. reflexivity. }
  split; [repeat split; assumption|].
  apply (find_narrowing_composes None serving_AB
           {| requests := 1; endpoint := endpoint serving_AB |} offline
           directory_AB);
    [reflexivity | exact Hdisjoint | reflexivity].
Defined.

Lemma first_segment_functional (locale language language' : string) :
  first_segment locale language -> first_segment locale language' ->
  language = language'.
Proof. unfold first_segment, ok. congruence. Qed.

Lemma split_first_without_sep (sep : ascii) (s : string) :
  match split sep s with
  | segment :: _ => contains sep segment = false
  | [] => True
  end.
Proof.
  induction s as [|c rest IH]; simpl; [reflexivity|].
  destruct (Ascii.eqb c sep) eqn:Hc; [reflexivity|].
  destruct (split sep rest) as [|segment segments]; simpl.
  - now rewrite Hc.
  - now rewrite Hc, IH.
Qed.

(** The language of a locale has no dash, and the locale is the language
    itself or the language followed by a dash and more. *)
Lemma first_segment_prefix (locale language : string) :
  first_segment locale language <->
  contains "-" language = false /\
  (locale = language \/ exists rest, locale = language +:+ "-" +:+ rest).
Proof.
  split.
  - intros Hlanguage.
    assert (contains "-" language = false) as Hdash.
    { pose proof (split_first_without_sep "-" locale) as H.
      unfold first_segment in Hlanguage.
      destruct (split "-" locale); [discriminate|].
      now injection Hlanguage as <-. }
    split; [assumption|].
    destruct (contains "-" locale) eqn:Hlocale.
    + apply contains_first_sep in Hlocale as (pre & post & -> & Hpre).
      right. exists post.
      now rewrite (first_segment_dash pre post language Hpre Hlanguage).
    + left. symmetry. now apply first_segment_no_dash.
  - intros [Hdash [->|[rest ->]]]; unfold first_segment.
    + now rewrite split_without_sep.
    + change ("-" +:+ rest) with (String "-" rest).
      now rewrite split_at_first_sep.
Qed.

(** X4: in a directory that [create] returned, [find(Language=language)]
    returns, in catalog order, exactly the voices whose locale is
    [language] itself or starts with [language] and a dash, [language]
    being free of dashes. *)
Theorem find_by_language
  (custom_voices : option (list Voice)) (w w' : World)
  (manager : VoicesManager) (language : string) :
  create custom_voices w = (ok manager, w') ->
  exists found,
    fst (find {[ "Language" := VStr language ]} manager) = ok found /\
    found `sublist_of` voices manager /\
    forall voice,
      voice ∈ found <->
      voice ∈ voices manager /\
      contains "-" language = false /\
      exists locale,
        voice !! "Locale" = Some (VStr locale) /\
        (locale = language \/
         exists rest, locale = language +:+ "-" +:+ rest).
Proof.
  intros [Hinit Hfixed]%create_voices_fixed.
  exists (filter (get_matches {[ "Language" := VStr language ]})
                 (voices manager)).
  split; [now rewrite find_populated|].
  split; [apply sublist_filter|].
  intros voice.
  rewrite list_elem_of_filter.
  unfold get_matches. rewrite map_Forall_singleton, dict_get_str.
  rewrite Forall_forall in Hfixed.
  split.
  - intros [Hmatch Hin].
    split; [assumption|].
    destruct (Hfixed voice Hin)
      as (locale & language' & Hlocale & Hlanguage & Hsegment & _).
    assert (language' = language) as -> by congruence.
    apply first_segment_prefix in Hsegment as [Hdash Hprefix].
    split; [assumption|].
    now exists locale.
  - intros (Hin & Hdash & locale & Hlocale & Hprefix).
    split; [|assumption].
    destruct (Hfixed voice Hin)
      as (locale' & language' & Hlocale' & Hlanguage & Hsegment & _).
    assert (locale' = locale) as -> by congruence.
    rewrite Hlanguage. do 2 f_equal.
    apply (first_segment_functional locale); [assumption|].
    now apply first_segment_prefix.
Qed.

Lemma find_by_language_witness :
  create None serving_AB
  = (ok directory_AB, {| requests := 1; endpoint := endpoint serving_AB |}) /\
  exists found,
    fst (find {[ "Language" := VStr "en" ]} directory_AB) = ok found /\
    found `sublist_of` voices directory_AB /\
    forall voice,
      voice ∈ found <->
      voice ∈ voices directory_AB /\
      contains "-" "en" = false /\
      exists locale,
        voice !! "Locale" = Some (VStr locale) /\
        (locale = "en" \/ exists rest, locale = "en" +:+ "-" +:+ rest).
Proof.
  split; [reflexivity|].
  apply (find_by_language None serving_AB
           {| requests := 1; endpoint := endpoint serving_AB |}
           directory_AB "en").
  reflexivity.
Defined.

(** X5: [create] without a seed issues exactly one request, whether the
    fetch fails, the normalization fails or a manager is returned: there
    is no retry. *)
Theorem create_unseeded_one_request (w : World) :
  requests (snd (create None w)) = S (requests w).
Proof.
  rewrite create_fetching.
  pose proof (list_voices_requests None w) as Hrequests.
  destruct (list_voices None w) as [[e|vs] w0]; [assumption|].
  now rewrite create_seeded.
Qed.

(** X6: [list_voices] never lets an [aiohttp.ClientError] or a
    [json.JSONDecodeError] out: whatever it raises is of another class,
    and so is whatever [create] raises. *)
Theorem list_voices_wraps_client_errors
  (proxy : option string) (custom_voices : option (list Voice))
  (w : World) (e : PyExc) :
  fst (list_voices proxy w) = raise e \/
  fst (create custom_voices w) = raise e ->
  (forall cause, e <> ClientError cause) /\ e <> JSONDecodeError.
Proof.
  assert (forall proxy' w0,
             fst (list_voices proxy' w0) = raise e ->
             (forall cause, e <> ClientError cause) /\ e <> JSONDecodeError)
    as Hfetch.
  { intros proxy' w0.
    unfold list_voices, try_except, throw.
    destruct (list_voices_try proxy' w0) as [[e0|data] w1]; [|discriminate].
    destruct e0; simpl; intros [= <-]; split; discriminate. }
  intros [Hraise|Hraise]; [now apply (Hfetch proxy w)|].
  destruct custom_voices as [seed|].
  - rewrite create_seeded in Hraise. simpl in Hraise.
    destruct (mapM with_language seed) as [e0|found] eqn:Hmap; [|discriminate].
    injection Hraise as ->.
    apply mapM_raise_first in Hmap as (_ & voice & _ & _ & _ & Hvoice).
    apply with_language_raises in Hvoice
      as [[_ ->]|(v & _ & _ & ->)]; split; discriminate.
  - rewrite create_fetching in Hraise.
    pose proof (Hfetch None w) as Hnone.
    destruct (list_voices None w) as [[e0|vs] w0]; simpl in *.
    + injection Hraise as ->. now apply Hnone.
    + rewrite create_seeded in Hraise. simpl in Hraise.
      destruct (mapM with_language vs) as [e0|found] eqn:Hmap; [|discriminate].
      injection Hraise as ->.
      apply mapM_raise_first in Hmap as (_ & voice & _ & _ & _ & Hvoice).
      apply with_language_raises in Hvoice
        as [[_ ->]|(v & _ & _ & ->)]; split; discriminate.
Qed.

Lemma list_voices_wraps_client_errors_witness :
  (fst (list_voices None offline)
   = raise (RuntimeError "Failed to fetch voice list: Cannot connect to host")
   \/
   fst (create None offline)
   = raise (RuntimeError "Failed to fetch voice list: Cannot connect to host"))
  /\
  (forall cause,
      RuntimeError "Failed to fetch voice list: Cannot connect to host"
      <> ClientError cause) /\
  RuntimeError "Failed to fetch voice list: Cannot connect to host"
  <> JSONDecodeError.
Proof.
  split; [left; reflexivity|].
  apply (list_voices_wraps_client_errors None None offline).
  left. reflexivity.
Defined.


(** * Equality of a value with itself *)

Lemma value_size_elem (xs : list Value) (x : Value) :
  x ∈ xs -> value_size x < value_size (VList xs).
Proof.
  simpl. induction 1 as [x xs|x y xs _ IH]; simpl; lia.
Qed.

Lemma value_size_lookup (d : gmap string Value) (key : string) (x : Value) :
  d !! key = Some x -> value_size x < value_size (VDict d).
Proof.
  intros Hkey. simpl.
  rewrite (map_fold_delete_L _ _ key x d); [lia | | assumption].
  intros. lia.
Qed.

Lemma map_fold_andb_true {A} (g : string -> A -> bool) (m : gmap string A) :
  (forall key x, m !! key = Some x -> g key x = true) ->
  map_fold (fun key x acc => acc && g key x) true m = true.
Proof.
  apply (map_fold_weak_ind
           (fun r m' => (forall key x, m' !! key = Some x -> g key x = true)
                        -> r = true)).
  - reflexivity.
  - intros key x m' r Hfresh IH Hall.
    rewrite IH, (Hall key x).
    + reflexivity.
    + apply lookup_insert_eq.
    + intros key' x' Hkey'. apply Hall.
      rewrite lookup_insert_ne; [assumption|].
      intros ->. congruence.
Qed.

(** On the modelled values [v == v] holds, through nested lists and
    dictionaries. *)
Lemma py_eq_refl (v : Value) : py_eq v v = true.
Proof.
  remember (value_size v) as n eqn:Hn.
  revert v Hn.
  induction n as [n IH] using lt_wf_ind.
  intros [| b | z | s | xs | d] ->; simpl.
  - reflexivity.
  - now destruct b.
  - apply Z.eqb_refl.
  - apply String.eqb_refl.
  - assert (forall x, x ∈ xs -> py_eq x x = true) as Helem.
    { intros x Hx. eapply IH; [|reflexivity]. now apply value_size_elem. }
    clear IH.
    induction xs as [|x xs IHxs]; [reflexivity|].
    rewrite Helem by apply list_elem_of_here. simpl.
    apply IHxs. intros y Hy. apply Helem. now apply list_elem_of_further.
  - rewrite Nat.eqb_refl. simpl.
    apply (map_fold_andb_true
             (fun key x => match d !! key with
                           | Some y => py_eq x y
                           | None => false
                           end)).
    intros key x Hkey. rewrite Hkey.
    eapply IH; [|reflexivity]. now apply (value_size_lookup d key).
Qed.

(** X7: a voice of a populated directory is found by every query made of
    attributes of its own, with the values it holds for them, nested
    values included; in particular by the query made of all of them. *)
Theorem find_own_attributes
  (attributes : gmap string Value) (self : VoicesManager) (voice : Voice) :
  is_initialized self = true ->
  voice ∈ voices self ->
  attributes ⊆ voice ->
  exists found, fst (find attributes self) = ok found /\ voice ∈ found.
Proof.
  intros Hinit Hin Hsub.
  exists (filter (get_matches attributes) (voices self)).
  split; [now rewrite find_populated|].
  apply list_elem_of_filter. split; [|assumption].
  intros key value Hkey.
  unfold dict_get.
  rewrite (lookup_weaken attributes voice key value Hkey Hsub).
  apply py_eq_refl.
Qed.

Lemma find_own_attributes_witness :
  (is_initialized directory_AB = true /\
   with_en voice_B ∈ voices directory_AB /\
   with_en voice_B ⊆ with_en voice_B) /\
  exists found,
    fst (find (with_en voice_B) directory_AB) = ok found /\
    with_en voice_B ∈ found.
Proof.
  assert (with_en voice_B ∈ voices directory_AB) as Hin.
  { apply list_elem_of_further, list_elem_of_here. }
  split; [repeat split; [exact Hin | reflexivity]|].
  apply (find_own_attributes (with_en voice_B) directory_AB (with_en voice_B));
    [reflexivity | exact Hin | reflexivity].
Defined.

(** * The command line tool *)

Import Util.

Lemma bind_returned {A B} (m : Console A) (f : A -> Console B)
  (p p' : Process) (x : A) :
  m p = (inr x, p') -> (m ≫= f) p = f x p'.
Proof. intros H. unfold mbind, Console_bind. now rewrite H. Qed.

Lemma bind_aborted {A B} (m : Console A) (f : A -> Console B)
  (p p' : Process) (a : Abort) :
  m p = (inl a, p') -> (m ≫= f) p = (inl a, p').
Proof. intros H. unfold mbind, Console_bind. now rewrite H. Qed.

Lemma emit_events (ev : Event) (p : Process) :
  emit ev p = (inr tt, {| net := net p; events := events p ++ [ev] |}).
Proof. reflexivity. Qed.

Lemma ret_process {A} (x : A) (p : Process) :
  (mret x : Console A) p = (inr x, p).
Proof. reflexivity. Qed.

Section PrintVoices.

Variable py_str : Value -> string.
Variable dict_items : Voice -> list (string * Value).
Variable list_sort : list (Value * Voice) -> Result (list Voice).

Lemma print_attribute_events (item : string * Value) (p : Process) :
  print_attribute py_str item p
  = (inr tt,
     {| net := net p;
        events := events p
                  ++ map Printed
                       (omap (fun '(key, value) =>
                                if bool_decide (key ∈ hidden) then None
                                else Some (label key +:+ ": "
                                           +:+ py_str value))
                             [item]) |}).
Proof.
  destruct item as [key value]. unfold print_attribute. simpl.
  destruct (bool_decide (key ∈ hidden)); simpl.
  - rewrite app_nil_r. now destruct p.
  - reflexivity.
Qed.

Lemma print_attributes_events (its : list (string * Value)) (p : Process) :
  exists units,
    mapM (print_attribute py_str) its p
    = (inr units,
       {| net := net p;
          events := events p
                    ++ map Printed
                         (omap (fun '(key, value) =>
                                  if bool_decide (key ∈ hidden) then None
                                  else Some (label key +:+ ": "
                                             +:+ py_str value))
                               its) |}).
Proof.
  revert p.
  induction its as [|item its IH]; intros p.
  - exists []. simpl. rewrite ret_process, app_nil_r. now destruct p.
  - simpl mapM.
    rewrite (bind_returned _ _ _ _ _ (print_attribute_events item p)).
    match goal with
    | |- context [(mapM _ its ≫= _) ?q] => destruct (IH q) as [units Hunits]
    end.
    rewrite (bind_returned _ _ _ _ _ Hunits).
    exists (tt :: units). rewrite ret_process. simpl net. simpl events.
    do 2 f_equal.
    rewrite <- app_assoc, <- map_app. do 2 f_equal.
    change (item :: its) with ([item] ++ its).
    now rewrite omap_app.
Qed.

Lemma print_enumerated_events (idx : nat) (voices : list Voice) (p : Process) :
  print_enumerated py_str dict_items idx voices p
  = (inr tt,
     {| net := net p;
        events := events p
                  ++ map Printed (voices_lines py_str dict_items idx voices) |}).
Proof.
  revert idx p.
  induction voices as [|voice rest IH]; intros idx p.
  - simpl. rewrite ret_process, app_nil_r. now destruct p.
  - simpl print_enumerated. simpl voices_lines.
    assert (exists q,
               (if Nat.ltb 0 idx then print_line "" else mret tt) p
               = (inr tt, q) /\
               net q = net p /\
               events q = events p
                          ++ map Printed (if Nat.ltb 0 idx then [""] else []))
      as (q & Hq & Hnet & Hevents).
    { destruct (Nat.ltb 0 idx).
      - eexists. split; [apply emit_events|]. now split.
      - exists p. rewrite ret_process, app_nil_r. now repeat split. }
    rewrite (bind_returned _ _ _ _ _ Hq).
    destruct (print_attributes_events (dict_items voice) q) as [units Hunits].
    rewrite (bind_returned _ _ _ _ _ Hunits).
    rewrite IH. simpl net. simpl events.
    rewrite Hnet, Hevents.
    unfold attribute_lines.
    now rewrite !map_app, <- !app_assoc.
Qed.

Lemma print_voices_unfold (proxy : option string) (p : Process) :
  _print_voices py_str dict_items list_sort proxy p
  = match list_voices proxy (net p) with
    | (inl e, w) => (inl (Raised e), {| net := w; events := events p |})
    | (inr fetched, w) =>
        match sorted list_sort fetched with
        | inl e => (inl (Raised e), {| net := w; events := events p |})
        | inr voices =>
            (inr tt,
             {| net := w;
                events := events p
                          ++ map Printed
                               (voices_lines py_str dict_items 0 voices) |})
        end
    end.
Proof.
  unfold _print_voices, mbind, Console_bind, await.
  destruct (list_voices proxy (net p)) as [[e|fetched] w]; [reflexivity|].
  unfold pure.
  destruct (sorted list_sort fetched) as [e|voices]; [reflexivity|].
  now rewrite print_enumerated_events.
Qed.

Lemma short_name_raises (voice : Voice) (e : PyExc) :
  short_name voice = raise e -> e = KeyError "ShortName".
Proof.
  unfold short_name. destruct (voice !! "ShortName"); [discriminate|].
  now intros [= <-].
Qed.

Lemma short_names_missing (voices : list Voice) :
  Exists (fun voice => voice !! "ShortName" = None) voices ->
  mapM short_name voices = raise (KeyError "ShortName").
Proof.
  induction 1 as [voice rest Hmissing|voice rest _ IH]; simpl.
  - unfold short_name. now rewrite Hmissing.
  - rewrite IH.
    destruct (short_name voice) as [e|name] eqn:Hname; simpl; [|reflexivity].
    now rewrite (short_name_raises voice e Hname).
Qed.

Lemma sorted_permutation (fetched voices : list Voice) :
  (forall decorated sorted_voices,
      list_sort decorated = ok sorted_voices ->
      sorted_voices ≡ₚ decorated.*2) ->
  sorted list_sort fetched = ok voices ->
  voices ≡ₚ fetched.
Proof.
  intros Hsort. unfold sorted.
  destruct (mapM short_name fetched) as [e|keys] eqn:Hkeys; simpl;
    [discriminate|].
  intros Hsorted%Hsort.
  rewrite Hsorted, snd_zip; [reflexivity|].
  apply mapM_ok_Forall2, Forall2_length in Hkeys. lia.
Qed.

Lemma attribute_line_not_blank (key : string) (value : Value) :
  label key +:+ ": " +:+ py_str value <> "".
Proof. now destruct (label key). Qed.

Lemma attribute_lines_elem (voice : Voice) (line : string) :
  line ∈ attribute_lines py_str dict_items voice <->
  exists key value,
    (key, value) ∈ dict_items voice /\
    (key ∉ hidden) /\
    line = label key +:+ ": " +:+ py_str value.
Proof.
  unfold attribute_lines. rewrite list_elem_of_omap.
  split.
  - intros ([key value] & Hin & Hline).
    destruct (bool_decide (key ∈ hidden)) eqn:Hhidden; [discriminate|].
    apply bool_decide_eq_false in Hhidden.
    injection Hline as <-.
    now exists key, value.
  - intros (key & value & Hin & Hhidden & ->).
    exists (key, value). split; [assumption|].
    now rewrite bool_decide_eq_false_2.
Qed.

Lemma voices_lines_elem (idx : nat) (voices : list Voice) (line : string) :
  line ∈ voices_lines py_str dict_items idx voices ->
  line = "" \/
  exists voice,
    voice ∈ voices /\ line ∈ attribute_lines py_str dict_items voice.
Proof.
  revert idx.
  induction voices as [|voice rest IH]; intros idx; simpl.
  - intros H. now apply elem_of_nil in H.
  - rewrite !elem_of_app.
    intros [Hblank|[Hattribute|Hrest]].
    + left. destruct (Nat.ltb 0 idx).
      * now apply list_elem_of_singleton in Hblank.
      * now apply elem_of_nil in Hblank.
    + right. exists voice. split; [apply list_elem_of_here | assumption].
    + destruct (IH _ Hrest) as [->|(voice' & Hin & Hline)]; [now left|].
      right. exists voice'. split; [now apply list_elem_of_further | assumption].
Qed.

Lemma voices_lines_attribute
  (idx : nat) (voices : list Voice) (voice : Voice) (line : string) :
  voice ∈ voices ->
  line ∈ attribute_lines py_str dict_items voice ->
  line ∈ voices_lines py_str dict_items idx voices.
Proof.
  intros Hin Hline. revert idx.
  induction Hin as [voice rest|voice other rest _ IH]; intros idx; simpl;
    rewrite !elem_of_app.
  - right. now left.
  - right. right. apply IH. assumption.
Qed.

Lemma filter_none {A} (P : A -> Prop) `{!forall x, Decision (P x)}
  (l : list A) :
  Forall (fun x => ~ P x) l -> filter P l = [].
Proof.
  induction 1 as [|x l Hx _ IH]; [reflexivity|].
  now rewrite filter_cons_False.
Qed.

Lemma attribute_lines_no_blank (voice : Voice) :
  filter (fun line => line = "") (attribute_lines py_str dict_items voice) = [].
Proof.
  apply filter_none, Forall_forall.
  intros line (key & value & _ & _ & ->)%attribute_lines_elem.
  apply attribute_line_not_blank.
Qed.

Lemma voices_lines_blank (idx : nat) (voices : list Voice) :
  length (filter (fun line => line = "")
                 (voices_lines py_str dict_items idx voices))
  = match idx with
    | 0 => pred (length voices)
    | S _ => length voices
    end.
Proof.
  revert idx.
  induction voices as [|voice rest IH]; intros idx.
  - now destruct idx.
  - simpl voices_lines.
    rewrite !filter_app, !length_app, attribute_lines_no_blank, IH.
    now destruct idx.
Qed.

End PrintVoices.



(** X9: when a fetched voice has no [ShortName], [_print_voices] raises
    [KeyError] from the sort key and prints nothing, whatever the other
    voices are. *)
Theorem print_voices_missing_short_name
  (py_str : Value -> string)
  (dict_items : Voice -> list (string * Value))
  (list_sort : list (Value * Voice) -> Result (list Voice))
  (proxy : option string) (p : Process) (fetched : list Voice) (w : World) :
  list_voices proxy (net p) = (ok fetched, w) ->
  Exists (fun voice => voice !! "ShortName" = None) fetched ->
  _print_voices py_str dict_items list_sort proxy p
  = (inl (Raised (KeyError "ShortName")), {| net := w; events := events p |}).
Proof.
  intros Hfetched Hmissing.
  rewrite print_voices_unfold, Hfetched.
  unfold ok, sorted. cbv beta iota.
  now rewrite (short_names_missing fetched Hmissing).
Qed.

(** X10: when [_print_voices] returns, the lines it printed are, besides
    empty lines, exactly the lines [label: value] of the attributes of
    the fetched voices whose key is not hidden, the label being the key,
    except that [ShortName] is labelled [Name]. A line labelled [Name]
    therefore shows a [ShortName]; the attributes [Name], [Locale],
    [SuggestedCodec], [FriendlyName], [Status] and [VoiceTag] are never
    shown. *)
Theorem print_voices_lines
  (py_str : Value -> string)
  (dict_items : Voice -> list (string * Value))
  (list_sort : list (Value * Voice) -> Result (list Voice))
  (proxy : option string) (p p' : Process) (fetched : list Voice) (w : World) :
  (forall voice key value,
      (key, value) ∈ dict_items voice <-> voice !! key = Some value) ->
  (forall decorated sorted_voices,
      list_sort decorated = ok sorted_voices ->
      sorted_voices ≡ₚ decorated.*2) ->
  list_voices proxy (net p) = (ok fetched, w) ->
  _print_voices py_str dict_items list_sort proxy p = (inr tt, p') ->
  exists lines,
    events p' = events p ++ map Printed lines /\
    (forall voice key value,
        voice ∈ fetched -> voice !! key = Some value -> key ∉ hidden ->
        (label key +:+ ": " +:+ py_str value) ∈ lines) /\
    (forall line,
        line ∈ lines ->
        line = "" \/
        exists voice key value,
          voice ∈ fetched /\ voice !! key = Some value /\
          (key ∉ hidden) /\
          (label key = "Name" <-> key = "ShortName") /\
          line = label key +:+ ": " +:+ py_str value).
Proof.
  intros Hitems Hsort Hfetched.
  rewrite print_voices_unfold, Hfetched.
  unfold ok. cbv beta iota.
  destruct (sorted list_sort fetched) as [e|voices] eqn:Hsorted;
    [discriminate|].
  apply (sorted_permutation list_sort fetched voices Hsort) in Hsorted.
  intros [= <-]. simpl.
  exists (voices_lines py_str dict_items 0 voices).
  split; [reflexivity|].
  split.
  - intros voice key value Hin Hkey Hhidden.
    apply (voices_lines_attribute py_str dict_items 0 voices voice).
    + now rewrite Hsorted.
    + apply attribute_lines_elem.
      exists key, value. repeat split; [|assumption].
      exact (proj2 (Hitems voice key value) Hkey).
  - intros line [->|(voice & Hin & Hline)]%voices_lines_elem; [now left|].
    right.
    apply attribute_lines_elem in Hline
      as (key & value & Hitem & Hhidden & ->).
    exists voice, key, value.
    split; [now rewrite <- Hsorted|].
    split; [exact (proj1 (Hitems voice key value) Hitem)|].
    split; [assumption|].
    split; [|reflexivity].
    unfold label.
    destruct (String.eqb key "ShortName") eqn:Hkey.
    + apply String.eqb_eq in Hkey. tauto.
    + apply String.eqb_neq in Hkey.
      split; [|tauto].
      intros ->. exfalso. apply Hhidden.
      do 4 apply list_elem_of_further. apply list_elem_of_here.
Qed.

(** X11: when [_print_voices] returns, it has called [print()] with
    nothing once less than there are fetched voices, and never for an
    empty catalog: these separators stand between consecutive voices, also
    around a voice that has nothing to show, and no attribute is ever
    printed as an empty text. *)
Theorem print_voices_blank_lines
  (py_str : Value -> string)
  (dict_items : Voice -> list (string * Value))
  (list_sort : list (Value * Voice) -> Result (list Voice))
  (proxy : option string) (p p' : Process) (fetched : list Voice) (w : World) :
  (forall decorated sorted_voices,
      list_sort decorated = ok sorted_voices ->
      sorted_voices ≡ₚ decorated.*2) ->
  list_voices proxy (net p) = (ok fetched, w) ->
  _print_voices py_str dict_items list_sort proxy p = (inr tt, p') ->
  exists lines,
    events p' = events p ++ map Printed lines /\
    length (filter (fun line => line = "") lines) = pred (length fetched).
Proof.
  intros Hsort Hfetched.
  rewrite print_voices_unfold, Hfetched.
  unfold ok. cbv beta iota.
  destruct (sorted list_sort fetched) as [e|voices] eqn:Hsorted;
    [discriminate|].
  apply (sorted_permutation list_sort fetched voices Hsort) in Hsorted.
  intros [= <-]. simpl.
  exists (voices_lines py_str dict_items 0 voices).
  split; [reflexivity|].
  now rewrite voices_lines_blank, Hsorted.
Qed.


Section Main.

Variable py_str : Value -> string.
Variable dict_items : Voice -> list (string * Value).
Variable list_sort : list (Value * Voice) -> Result (list Voice).
Variable read_text : string -> Result string.
Variable run_tts : Args.t -> Process -> Result unit.

Local Abbreviation amain' :=
  (amain py_str dict_items list_sort read_text run_tts).


Lemma read_file_events (path : string) (p : Process) :
  read_file read_text path p
  = (match read_text path with
     | inl e => inl (Raised e)
     | inr content => inr content
     end,
     {| net := net p; events := events p ++ [FileRead path] |}).
Proof.
  unfold read_file.
  rewrite (bind_returned _ _ _ _ _ (emit_events (FileRead path) p)).
  unfold pure. now destruct (read_text path).
Qed.

(** [amain] when [--list-voices] is not given and no file is to be read. *)
Lemma amain_text (args : Args.t) (p : Process) :
  Args.list_voices args = false ->
  truthy (Args.file args) = false ->
  amain' args p
  = if truthy (Args.text args) then _run_tts run_tts args p else (inr tt, p).
Proof.
  intros Hlist Hfile. unfold amain. rewrite Hlist.
  rewrite (bind_returned _ _ _ _ _ (ret_process tt p)).
  destruct (Args.file args) as [path|].
  - rewrite Hfile.
    rewrite (bind_returned _ _ _ _ _ (ret_process args p)).
    now destruct (truthy (Args.text args)).
  - rewrite (bind_returned _ _ _ _ _ (ret_process args p)).
    now destruct (truthy (Args.text args)).
Qed.

(** [amain] when [--list-voices] is not given and a file is. *)
Lemma amain_file (args : Args.t) (path : string) (p : Process) :
  Args.list_voices args = false ->
  Args.file args = Some path ->
  truthy (Some path) = true ->
  amain' args p
  = match read_text path with
    | inl e =>
        (inl (Raised e),
         {| net := net p; events := events p ++ [FileRead path] |})
    | inr content =>
        if truthy (Some content)
        then _run_tts run_tts (Args.set_text args content)
               {| net := net p; events := events p ++ [FileRead path] |}
        else (inr tt,
              {| net := net p; events := events p ++ [FileRead path] |})
    end.
Proof.
  intros Hlist Hfile Hpath. unfold amain. rewrite Hlist, Hfile, Hpath.
  rewrite (bind_returned _ _ _ _ _ (ret_process tt p)).
  destruct (read_text path) as [e|content] eqn:Hread.
  - apply bind_aborted.
    apply bind_aborted.
    rewrite read_file_events, Hread. reflexivity.
  - erewrite bind_returned.
    2:{ erewrite bind_returned; [apply ret_process|].
        rewrite read_file_events, Hread. reflexivity. }
    change (Args.text (Args.set_text args content)) with (Some content).
    now destruct (truthy (Some content)).
Qed.



(** X14: an empty text is no error and no synthesis. Without
    [--list-voices], when no file is to be read and the text is missing or
    empty, or when the file read is empty, [amain] returns normally
    without calling [_run_tts]; all it does is read the file, if any. *)
Theorem amain_empty_text_does_nothing (args : Args.t) (p : Process) :
  Args.list_voices args = false ->
  (truthy (Args.file args) = false /\ truthy (Args.text args) = false) \/
  (exists path,
      Args.file args = Some path /\ truthy (Some path) = true /\
      read_text path = ok "") ->
  amain' args p
  = (inr tt,
     {| net := net p;
        events := events p
                  ++ match Args.file args with
                     | Some path =>
                         if truthy (Some path) then [FileRead path] else []
                     | None => []
                     end |}).
Proof.
  intros Hlist [[Hfile Htext]|(path & Hpath & Hfile & Hread)].
  - rewrite (amain_text args p Hlist Hfile), Htext.
    destruct (Args.file args) as [path|].
    + rewrite Hfile, app_nil_r. now destruct p.
    + rewrite app_nil_r. now destruct p.
  - rewrite (amain_file args path p Hlist Hpath Hfile), Hread, Hpath, Hfile.
    reflexivity.
Qed.

End Main.

(** * The theorems on the tool at work *)

Lemma example_items_spec (voice : Voice) (key : string) (value : Value) :
  (key, value) ∈ example_items voice <-> voice !! key = Some value.
Proof. apply elem_of_map_to_list. Qed.

Lemma insert_sorted_permutation
  (k : string) (v : Voice) (l : list (string * Voice)) :
  insert_sorted k v l ≡ₚ (k, v) :: l.
Proof.
  induction l as [|[k' v'] rest IH]; simpl; [reflexivity|].
  destruct (String.leb k k'); [reflexivity|].
  rewrite IH. apply Permutation_swap.
Qed.

Lemma example_sort_permutation
  (decorated : list (Value * Voice)) (sorted_voices : list Voice) :
  example_sort decorated = ok sorted_voices ->
  sorted_voices ≡ₚ decorated.*2.
Proof.
  unfold example_sort.
  destruct (mapM _ decorated) as [e|keyed] eqn:Hkeyed; simpl; [discriminate|].
  intros [= <-].
  apply mapM_ok_Forall2 in Hkeyed.
  assert (keyed.*2 = decorated.*2) as <-.
  { induction Hkeyed as [|[k v] [s v'] decorated keyed Hkey _ IH];
      [reflexivity|].
    rewrite !fmap_cons. f_equal; [|exact IH].
    destruct (example_key k); simpl in Hkey; [discriminate|].
    now injection Hkey as _ ->. }
  apply fmap_Permutation.
  clear Hkeyed.
  induction keyed as [|[k v] keyed IH]; simpl; [reflexivity|].
  now rewrite insert_sorted_permutation, IH.
Qed.

Example print_voices_BA :
  _print_voices example_str example_items example_sort None (start serving_BA)
  = (inr tt,
     {| net := {| requests := 1; endpoint := endpoint serving_BA |};
        events := [Printed "Gender: Female"; Printed "Name: A"; Printed "";
                   Printed "Gender: Male"; Printed "Name: B"] |}).
Proof. reflexivity. Qed.


Lemma print_voices_missing_short_name_witness :
  (list_voices None (net (start serving_AF))
   = (ok [voice_A; voice_F],
      {| requests := 1; endpoint := endpoint serving_AF |}) /\
   Exists (fun voice : Voice => voice !! "ShortName" = None)
          [voice_A; voice_F]) /\
  _print_voices example_str example_items example_sort None (start serving_AF)
  = (inl (Raised (KeyError "ShortName")),
     {| net := {| requests := 1; endpoint := endpoint serving_AF |};
        events := events (start serving_AF) |}).
Proof.
  assert (Exists (fun voice : Voice => voice !! "ShortName" = None)
                 [voice_A; voice_F]) as Hmissing.
  { apply Exists_cons_tl, Exists_cons_hd. reflexivity. }
  split; [split; [reflexivity | exact Hmissing]|].
  apply (print_voices_missing_short_name
           example_str example_items example_sort None (start serving_AF)
           [voice_A; voice_F]);
    [reflexivity | exact Hmissing].
Defined.

Lemma print_voices_lines_witness :
  ((forall voice key value,
       (key, value) ∈ example_items voice <-> voice !! key = Some value) /\
   (forall decorated sorted_voices,
       example_sort decorated = ok sorted_voices ->
       sorted_voices ≡ₚ decorated.*2) /\
   list_voices None (net (start serving_BA))
   = (ok [voice_B; voice_A],
      {| requests := 1; endpoint := endpoint serving_BA |}) /\
   _print_voices example_str example_items example_sort None (start serving_BA)
   = (inr tt,
      {| net := {| requests := 1; endpoint := endpoint serving_BA |};
         events := [Printed "Gender: Female"; Printed "Name: A"; Printed "";
                    Printed "Gender: Male"; Printed "Name: B"] |})) /\
  exists lines,
    [Printed "Gender: Female"; Printed "Name: A"; Printed "";
     Printed "Gender: Male"; Printed "Name: B"]
    = events (start serving_BA) ++ map Printed lines /\
    (forall voice key value,
        voice ∈ [voice_B; voice_A] -> voice !! key = Some value ->
        key ∉ hidden ->
        (label key +:+ ": " +:+ example_str value) ∈ lines) /\
    (forall line,
        line ∈ lines ->
        line = "" \/
        exists voice key value,
          voice ∈ [voice_B; voice_A] /\ voice !! key = Some value /\
          (key ∉ hidden) /\
          (label key = "Name" <-> key = "ShortName") /\
          line = label key +:+ ": " +:+ example_str value).
Proof.
  split.
  - split; [exact example_items_spec|].
    split; [exact example_sort_permutation|].
    split; reflexivity.
  - apply (print_voices_lines
             example_str example_items example_sort None (start serving_BA)
             {| net := {| requests := 1; endpoint := endpoint serving_BA |};
                events := [Printed "Gender: Female"; Printed "Name: A";
                           Printed ""; Printed "Gender: Male";
                           Printed "Name: B"] |}
             [voice_B; voice_A]
             {| requests := 1; endpoint := endpoint serving_BA |});
      [exact example_items_spec | exact example_sort_permutation
      | reflexivity | reflexivity].
Defined.

Lemma print_voices_blank_lines_witness :
  ((forall decorated sorted_voices,
       example_sort decorated = ok sorted_voices ->
       sorted_voices ≡ₚ decorated.*2) /\
   list_voices None (net (start serving_BA))
   = (ok [voice_B; voice_A],
      {| requests := 1; endpoint := endpoint serving_BA |}) /\
   _print_voices example_str example_items example_sort None (start serving_BA)
   = (inr tt,
      {| net := {| requests := 1; endpoint := endpoint serving_BA |};
         events := [Printed "Gender: Female"; Printed "Name: A"; Printed "";
                    Printed "Gender: Male"; Printed "Name: B"] |})) /\
  exists lines,
    [Printed "Gender: Female"; Printed "Name: A"; Printed "";
     Printed "Gender: Male"; Printed "Name: B"]
    = events (start serving_BA) ++ map Printed lines /\
    length (filter (fun line => line = "") lines)
    = pred (length [voice_B; voice_A]).
Proof.
  split.
  - split; [exact example_sort_permutation|]. split; reflexivity.
  - apply (print_voices_blank_lines
             example_str example_items example_sort None (start serving_BA)
             {| net := {| requests := 1; endpoint := endpoint serving_BA |};
                events := [Printed "Gender: Female"; Printed "Name: A";
                           Printed ""; Printed "Gender: Male";
                           Printed "Name: B"] |}
             [voice_B; voice_A]
             {| requests := 1; endpoint := endpoint serving_BA |});
      [exact example_sort_permutation | reflexivity | reflexivity].
Defined.

Example amain_list :
  amain example_str example_items example_sort example_read_text
        example_run_tts args_list (start serving_BA)
  = (inl (SystemExit 0),
     {| net := {| requests := 1; endpoint := endpoint serving_BA |};
        events := [Printed "Gender: Female"; Printed "Name: A"; Printed "";
                   Printed "Gender: Male"; Printed "Name: B"] |}).
Proof. reflexivity. Qed.

Example amain_file_speech :
  amain example_str example_items example_sort example_read_text
        example_run_tts (args_file "speech.txt") (start offline)
  = (inr tt,
     {| net := offline;
        events := [FileRead "speech.txt";
                   TtsRun (Args.set_text (args_file "speech.txt")
                                         "Hello world")] |}).
Proof. reflexivity. Qed.

Example amain_file_missing :
  amain example_str example_items example_sort example_read_text
        example_run_tts (args_file "nowhere.txt") (start offline)
  = (inl (Raised (OtherException "FileNotFoundError")),
     {| net := offline; events := [FileRead "nowhere.txt"] |}).
Proof. reflexivity. Qed.



Lemma amain_empty_text_does_nothing_witness :
  (Args.list_voices (args_text "") = false /\
   truthy (Args.file (args_text "")) = false /\
   truthy (Args.text (args_text "")) = false) /\
  amain example_str example_items example_sort example_read_text
        example_run_tts (args_text "") (start offline)
  = (inr tt,
     {| net := net (start offline);
        events := events (start offline)
                  ++ match Args.file (args_text "") with
                     | Some path =>
                         if truthy (Some path) then [FileRead path] else []
                     | None => []
                     end |}).
Proof.
  split; [repeat split; reflexivity|].
  apply (amain_empty_text_does_nothing
           example_str example_items example_sort example_read_text
           example_run_tts (args_text "") (start offline));
    [reflexivity | left; split; reflexivity].
Defined.
